(** * bpfink: kernel event pipeline and consumer engine

    A shallow embedding of [pkg/fim.go] and [pkg/consumers.go]:
    the raw event codec, the watch table kept by [FIM.Add] and
    [FIM.Remove], the per-record body of the decode loop started by
    [FIM.start], and the [BaseConsumer] life cycle with the [UsersState]
    implementation of its interfaces.

    Go values are modelled as follows.
    - Fixed-width integers are [Z]; conversions between widths are written
      out with [Z.land] and the sign test.
    - [[]byte] and [[16]byte] are [list byte]; Go strings are [string].
    - [error] values are the inductive [error]; a nil error is [None].
    - The two [sync.Map]s are [gmap]s with typed keys and values.
    - Collaborators outside the package (the file system, the loaded BPF
      module, /proc, the agent database) are interfaces given as type
      classes or as oracles passed to the function that consults them. *)

From Stdlib Require Import ZArith Lia String Ascii List.
From Stdlib.Strings Require Import Byte.
From stdpp Require Import base option list gmap strings pretty.

Local Open Scope Z_scope.

(* ================================================================= *)
(** * Part I: the program *)
(* ================================================================= *)

(** ** Errors *)

(** Go [error] values that the modelled code creates, compares or passes
    on.  [ErrReload] is the package-level sentinel that [Init] compares
    against with [==]. *)
Inductive error : Type :=
| ErrReload
| EOF
| ErrUnexpectedEOF
| Errno (code : Z)
| ErrorString (msg : string)
| ErrorWrap (msg : string) (cause : error).

#[global] Instance error_eq_dec : EqDecision error.
Proof. solve_decision. Defined.

(** [syscall] error numbers used by the reference kernel and file system. *)
Definition ENOENT : Z := 2.
Definition E2BIG : Z := 7.
Definition EACCES : Z := 13.
Definition EEXIST : Z := 17.

(** ** Constants of fim.go *)

Definition taskComLen : nat := 16.
Definition chanSize : nat := 10.
Definition bpfAny : Z := 0.

(** ** Raw event codec *)

Module Codec.

(** [Event]: what user space receives from the pipeline. *)
Record Event : Type := mkEvent {
  EMode : Z;      (* int32  *)
  EPID : Z;       (* uint32 *)
  EUID : Z;       (* uint32 *)
  ESize : Z;      (* uint32 *)
  EInode : Z;     (* uint64 *)
  EDevice : Z;    (* uint64 *)
  ECom : string;
  EPath : string
}.

(** [rawEvent]: the record written by the BPF program. *)
Record rawEvent : Type := mkRaw {
  Mode : Z;       (* int32  *)
  PID : Z;        (* uint32 *)
  UID : Z;        (* uint32 *)
  Size : Z;       (* uint32 *)
  Inode : Z;      (* uint64 *)
  Device : Z;     (* uint64 *)
  Com : list byte (* [taskComLen]byte *)
}.

(** Values of the Go type: every field within the range of its type. *)
Definition in_range (e : rawEvent) : Prop :=
  - 2 ^ 31 <= Mode e < 2 ^ 31 /\
  0 <= PID e < 2 ^ 32 /\
  0 <= UID e < 2 ^ 32 /\
  0 <= Size e < 2 ^ 32 /\
  0 <= Inode e < 2 ^ 64 /\
  0 <= Device e < 2 ^ 64 /\
  length (Com e) = taskComLen.

(** [byte(v)]: conversion to uint8 keeps the low eight bits. *)
Definition byte_of_Z (v : Z) : byte :=
  default x00 (Byte.of_N (Z.to_N (Z.land v 255))).

(** [uint64(b)] for a byte [b]. *)
Definition Z_of_byte (b : byte) : Z := Z.of_N (Byte.to_N b).

(** [binary.LittleEndian.PutUint32] and [PutUint64]:
    [b[i] = byte(v >> (8*i))], for [width] bytes. *)
Fixpoint PutUint (width : nat) (v : Z) : list byte :=
  match width with
  | O => []
  | S w => byte_of_Z v :: PutUint w (Z.shiftr v 8)
  end.

(** [binary.LittleEndian.Uint32] and [Uint64]:
    [uint(b[0]) | uint(b[1])<<8 | ...]. *)
Fixpoint Uint (b : list byte) : Z :=
  match b with
  | [] => 0
  | x :: rest => Z.lor (Z_of_byte x) (Z.shiftl (Uint rest) 8)
  end.

(** [uint32(v)] for [v : int32]. *)
Definition uint32_of_int32 (v : Z) : Z := Z.land v (Z.ones 32).

(** [int32(u)] for [u : uint32]. *)
Definition int32_of_uint32 (u : Z) : Z :=
  if Z.testbit u 31 then u - 2 ^ 32 else u.

(** [binary.Write(buf, binary.LittleEndian, e)] for a [rawEvent]: the
    fields in declaration order, each in its fixed width. All fields
    have a fixed size, so the write cannot fail. *)
Definition binary_Write (e : rawEvent) : list byte * option error :=
  (PutUint 4 (uint32_of_int32 (Mode e)) ++
   PutUint 4 (PID e) ++
   PutUint 4 (UID e) ++
   PutUint 4 (Size e) ++
   PutUint 8 (Inode e) ++
   PutUint 8 (Device e) ++
   Com e, None).

(** [Encode], for the record type that the decode loop reads: a fresh
    buffer, [binary.Write] into it, and the buffer's bytes together
    with the write's error. *)
Definition Encode (i : rawEvent) : list byte * option error :=
  let '(buf, err) := binary_Write i in
  (buf, err).

(** Size of the encoded record: 4+4+4+4+8+8+16. *)
Definition rawEventSize : nat := 48.

(** [binary.Read(bytes.NewBuffer(data), binary.LittleEndian, &e)]:
    [io.ReadFull] of [rawEventSize] bytes (EOF on an empty buffer,
    ErrUnexpectedEOF on a short one), then the fields in order. Bytes
    after the record are left unread. *)
Definition binary_Read (data : list byte) : rawEvent + error :=
  if decide (length data = 0%nat) then inr EOF
  else if decide (length data < rawEventSize)%nat then inr ErrUnexpectedEOF
  else
    let d := data in
    let mode := int32_of_uint32 (Uint (take 4 d)) in
    let d := drop 4 d in
    let pid := Uint (take 4 d) in
    let d := drop 4 d in
    let uid := Uint (take 4 d) in
    let d := drop 4 d in
    let size := Uint (take 4 d) in
    let d := drop 4 d in
    let inode := Uint (take 8 d) in
    let d := drop 8 d in
    let device := Uint (take 8 d) in
    let d := drop 8 d in
    let com := take taskComLen d in
    inl (mkRaw mode pid uid size inode device com).

End Codec.

(** ** The kernel table and the file system *)

Module Kernel.

(** The "rules" table of the loaded BPF module, as fim.go uses it:
    [Module.UpdateElement(table, &key, &value, flags)] and
    [Module.DeleteElement(table, &key)]. Both return an error or nil
    and may change the table. *)
Class RulesMap (K : Type) : Type := {
  UpdateElement : K -> Z -> Z -> Z -> K * option error;
  DeleteElement : K -> Z -> K * option error
}.

(** A call issued to the module, recorded in order of issue. *)
Inductive kcall : Type :=
| KUpdate (key value flags : Z)
| KDelete (key : Z).

#[global] Instance kcall_eq_dec : EqDecision kcall.
Proof. solve_decision. Defined.

(** Reference table used for the concrete runs below: a BPF hash map
    as bpf(2) documents it. An update with flag 0 (any) creates or
    overwrites and fails with E2BIG when the table is full; flag 1
    (no-exist) and flag 2 (exist) fail with EEXIST and ENOENT; a delete
    of an absent key fails with ENOENT. *)
Record HashTable : Type := mkHashTable {
  entries : gmap Z Z;
  max_entries : nat
}.

Definition hash_update (t : HashTable) (key value flags : Z)
  : HashTable * option error :=
  match entries t !! key with
  | Some _ =>
      if decide (flags = 1) then (t, Some (Errno EEXIST))
      else (mkHashTable (<[key := value]> (entries t)) (max_entries t), None)
  | None =>
      if decide (flags = 2) then (t, Some (Errno ENOENT))
      else if decide (size (entries t) < max_entries t)%nat
      then (mkHashTable (<[key := value]> (entries t)) (max_entries t), None)
      else (t, Some (Errno E2BIG))
  end.

Definition hash_delete (t : HashTable) (key : Z) : HashTable * option error :=
  match entries t !! key with
  | Some _ => (mkHashTable (delete key (entries t)) (max_entries t), None)
  | None => (t, Some (Errno ENOENT))
  end.

#[global] Instance HashTable_RulesMap : RulesMap HashTable := {
  UpdateElement := hash_update;
  DeleteElement := hash_delete
}.

(** [syscall.Stat_t], the two fields that identify a file. *)
Record Stat_t : Type := mkStat {
  Dev : Z;   (* uint64 *)
  Ino : Z    (* uint64 *)
}.

(** The file system at the time of a call: what [syscall.Stat(name, _)]
    fills in, or the error it returns. *)
Definition FS : Type := string -> Stat_t + error.

End Kernel.

(** ** The watch table: [NewKey], [FIM.Add], [FIM.Remove] *)

Module Watch.
Import Codec Kernel.

(** Lines written through the embedded [zerolog.Logger]. Only lines that
    are sent ([Msg]/[Msgf]) at error level are recorded; debug lines are
    left out. An event that is built but never sent, as in
    [f.Error().Err(err)], writes nothing. *)
Record logline : Type := mkLog {
  format : string;
  args : list Z
}.

#[global] Instance logline_eq_dec : EqDecision logline.
Proof. solve_decision. Defined.

(** [FIM]. [mapping] takes a key to its path and [reverse] a path to
    its key. Values stored in the two [sync.Map]s are always a string
    and a uint64, so their type assertions cannot fail. [Events] and
    [Errors] hold what has been sent on the two channels, oldest first;
    [kcalls] is the trace of calls made to the module. *)
Record FIM (K : Type) : Type := mkFIM {
  mapping : gmap Z string;
  reverse : gmap string Z;
  RulesTable : K;
  Events : list Event;
  Errors : list error;
  Logger : list logline;
  kcalls : list kcall
}.
Arguments mkFIM {K}.
Arguments mapping {K}.
Arguments reverse {K}.
Arguments RulesTable {K}.
Arguments Events {K}.
Arguments Errors {K}.
Arguments Logger {K}.
Arguments kcalls {K}.

(** The table right after [InitFIM]: both maps empty. *)
Definition InitFIM {K} (rulesTable : K) : FIM K :=
  mkFIM ∅ ∅ rulesTable [] [] [] [].

Definition set_mapping {K} (m : gmap Z string) (f : FIM K) : FIM K :=
  mkFIM m (reverse f) (RulesTable f) (Events f) (Errors f) (Logger f) (kcalls f).

Definition set_reverse {K} (r : gmap string Z) (f : FIM K) : FIM K :=
  mkFIM (mapping f) r (RulesTable f) (Events f) (Errors f) (Logger f) (kcalls f).

Definition log_error {K} (l : logline) (f : FIM K) : FIM K :=
  mkFIM (mapping f) (reverse f) (RulesTable f) (Events f) (Errors f)
        (Logger f ++ [l]) (kcalls f).

Definition send_event {K} (e : Event) (f : FIM K) : FIM K :=
  mkFIM (mapping f) (reverse f) (RulesTable f) (Events f ++ [e]) (Errors f)
        (Logger f) (kcalls f).

(** The module after a call: the new table, and the call on the trace. *)
Definition after_kcall {K} (t : K) (c : kcall) (f : FIM K) : FIM K :=
  mkFIM (mapping f) (reverse f) t (Events f) (Errors f) (Logger f)
        (kcalls f ++ [c]).

(** [NewKey]: stat the file; the key is the inode number. *)
Definition NewKey (fs : FS) (name : string) : Z * option error :=
  match fs name with
  | inr err => (0, Some err)
  | inl fstat => (Ino fstat, None)
  end.

Section Table.
Context {K : Type} `{!RulesMap K}.

(** [FIM.Add]. *)
Definition Add (fs : FS) (f : FIM K) (name : string) : option error * FIM K :=
  let '(key, err) := NewKey fs name in
  match err with
  | Some _ => (err, f)
  | None =>
      let value := 1 in
      let '(t, err) := UpdateElement (RulesTable f) key value bpfAny in
      let f := after_kcall t (KUpdate key value bpfAny) f in
      match err with
      | Some _ => (err, f)
      | None =>
          let f := set_mapping (<[key := name]> (mapping f)) f in
          let f := set_reverse (<[name := key]> (reverse f)) f in
          (None, f)
      end
  end.

(** [FIM.Remove]. The second [reverse.Load] yields the key again (or
    nil, for which [mapping.Delete] does nothing). *)
Definition Remove (f : FIM K) (name : string) : option error * FIM K :=
  match reverse f !! name with
  | None => (Some (ErrorString "error getting key"), f)
  | Some uintKey =>
      let '(t, err) := DeleteElement (RulesTable f) uintKey in
      let f := after_kcall t (KDelete uintKey) f in
      match err with
      | Some _ => (err, f)
      | None =>
          let id := reverse f !! name in
          let f := match id with
                   | Some k => set_mapping (delete k (mapping f)) f
                   | None => log_error (mkLog "error loading " []) f
                   end in
          let f := set_reverse (delete name (reverse f)) f in
          (None, f)
      end
  end.

(** [Resolve]: the lookup the decode loop makes, [f.mapping.Load]. *)
Definition Resolve (f : FIM K) (key : Z) : option string := mapping f !! key.

(** One call of the registration API; an [Add] sees the file system
    as it is when the call is made. *)
Inductive op : Type :=
| OpAdd (fs : FS) (name : string)
| OpRemove (name : string).

Definition step (f : FIM K) (o : op) : option error * FIM K :=
  match o with
  | OpAdd fs name => Add fs f name
  | OpRemove name => Remove f name
  end.

(** A sequence of calls, each one's error returned to its caller and
    the table carried on to the next call. *)
Definition run (ops : list op) (f : FIM K) : FIM K :=
  foldl (λ f o, (step f o).2) f ops.

(** The two views agree: a path has a key exactly when that key has
    the path. *)
Definition consistent (f : FIM K) : Prop :=
  ∀ (name : string) (key : Z),
    reverse f !! name = Some key ↔ mapping f !! key = Some name.

(** The calls of a sequence see the paths of [fs0] under the inode
    numbers that [fs0] gives them. *)
Definition stat_as (fs0 : FS) (o : op) : Prop :=
  match o with
  | OpAdd fs name => fs name = fs0 name
  | OpRemove _ => True
  end.

(** No two paths of [fs0] carry the same inode number. *)
Definition one_path_per_inode (fs0 : FS) : Prop :=
  ∀ (p q : string) (sp sq : Stat_t),
    fs0 p = inl sp → fs0 q = inl sq → Ino sp = Ino sq → p = q.

(** Every registered path is registered under the inode number that
    [fs0] gives it. *)
Definition keyed_by (fs0 : FS) (f : FIM K) : Prop :=
  ∀ (name : string) (key : Z),
    reverse f !! name = Some key →
    ∃ st, fs0 name = inl st ∧ Ino st = key.

End Table.

End Watch.

(** ** The decode loop of [FIM.start] *)

Module Pipeline.
Import Codec Kernel Watch.

(** /proc as [getCMDLine] sees it: for a pid, [None] when
    [os.Open("/proc/<pid>/cmdline")] fails, else the lines that
    [scanner.Scan]/[scanner.Text] yield, in order. *)
Definition Proc : Type := Z -> option (list string).

(** [strings.ReplaceAll(line, old, new)] for one-byte [old] and [new]. *)
Fixpoint ReplaceAll (line : string) (old new : ascii) : string :=
  match line with
  | EmptyString => EmptyString
  | String c rest =>
      String (if Ascii.eqb c old then new else c) (ReplaceAll rest old new)
  end.

(** The scanner loop of [getCMDLine]: the first non-empty line, with
    its NUL separators turned into spaces. *)
Fixpoint scan_lines (lines : list string) : string :=
  match lines with
  | [] => EmptyString
  | line :: rest =>
      if (0 <? String.length line)%nat
      then ReplaceAll line Ascii.zero " "%char
      else scan_lines rest
  end.

(** [FIM.getCMDLine]. *)
Definition getCMDLine (proc : Proc) (e : rawEvent) : string :=
  match proc (PID e) with
  | None => EmptyString
  | Some lines => scan_lines lines
  end.

(** [for index, bit := range e.Com { if bit == 0 { comLen = index; break } }]:
    the value of [comLen] after the loop, started at [index]. *)
Fixpoint comLen_loop (index : nat) (com : list byte) (comLen : nat) : nat :=
  match com with
  | [] => comLen
  | bit :: rest =>
      if Byte.eqb bit x00 then index
      else comLen_loop (S index) rest comLen
  end.

Section Loop.
Context {K : Type} `{!RulesMap K}.

(** [FIM.error]: a send that is dropped when the channel's buffer of
    [chanSize] is full. *)
Definition error_send (err : error) (f : FIM K) : FIM K :=
  if decide (length (Errors f) < chanSize)%nat
  then mkFIM (mapping f) (reverse f) (RulesTable f) (Events f)
             (Errors f ++ [err]) (Logger f) (kcalls f)
  else f.

(** The loop body after a successful decode. *)
Definition on_event (proc : Proc) (f : FIM K) (e : rawEvent) : FIM K :=
  let cmdline := getCMDLine proc e in
  let comLen := 0%nat in
  let cmdline :=
    if String.eqb cmdline EmptyString then
      let comLen := comLen_loop 0 (Com e) comLen in
      string_of_list_byte (take comLen (Com e))
    else cmdline in
  match mapping f !! Inode e with
  | None =>
      let f := log_error (mkLog "could not find key: %v in map" [Inode e]) f in
      let '(t, _) := DeleteElement (RulesTable f) (Inode e) in
      after_kcall t (KDelete (Inode e)) f
  | Some spath =>
      send_event (mkEvent (Mode e) (PID e) (UID e) (Size e) (Inode e)
                          (Device e) cmdline spath) f
  end.

(** [case data := <-eventChannel]: decode, then the body above; a
    record that does not decode is reported on [Errors] and skipped. *)
Definition on_data (proc : Proc) (f : FIM K) (data : list byte) : FIM K :=
  match binary_Read data with
  | inr err =>
      error_send (ErrorWrap "failed to decode received data %q: %w" err) f
  | inl e => on_event proc f e
  end.

End Loop.

End Pipeline.

(** ** The consumer engine: [BaseConsumer.Init] and [BaseConsumer.Consume] *)

Module Consumer.
Import Codec.

(** A method call made through one of the two interfaces. *)
Inductive call : Type :=
| CallLoad
| CallParse
| CallCreated
| CallChanged
| CallNotify (actor : string)
| CallSave
| CallTeardown.

#[global] Instance call_eq_dec : EqDecision call.
Proof. solve_decision. Defined.

(** The [State] interface. [W] is everything an implementation can
    read or write: its own fields, the agent database, the disk, the
    log. A method takes the world and returns its result with the
    world it leaves. *)
Record State (W : Type) : Type := mkState {
  Changed : W -> bool * W;
  Created : W -> bool * W;
  Notify : string -> W -> unit * W;
  Teardown : W -> option error * W
}.
Arguments mkState {W}.
Arguments Changed {W}.
Arguments Created {W}.
Arguments Notify {W}.
Arguments Teardown {W}.

(** The [ParserLoader] interface ([Register] is not used by [Init] or
    [Consume]). [Load] and [Save] receive [bc.AgentDB], which is part
    of [W]. [Parse] returns a state and an error, as in Go. *)
Record ParserLoader (W : Type) : Type := mkParserLoader {
  Load : W -> option error * W;
  Save : W -> option error * W;
  Parse : W -> (State W * option error) * W
}.
Arguments mkParserLoader {W}.
Arguments Load {W}.
Arguments Save {W}.
Arguments Parse {W}.

(** Code of the engine: a computation over the world and the trace of
    interface calls made so far. *)
Definition Act (W A : Type) : Type := W * list call -> A * (W * list call).

#[global] Instance Act_ret {W} : MRet (Act W) := λ A a s, (a, s).
#[global] Instance Act_bind {W} : MBind (Act W) :=
  λ A B k m s, let '(a, s') := m s in k a s'.

(** Calling a method: run it on the world and note the call. *)
Definition invoke {W A} (c : call) (m : W -> A * W) : Act W A :=
  λ '(w, tr), let '(a, w') := m w in (a, (w', tr ++ [c])).

(** [BaseConsumer.Init]. The [err] of each [if err := ...; ...]
    statement lives in that statement only; the [err] of the last line
    is the one declared together with [state]. *)
Definition Init {W} (bc : ParserLoader W) : Act W (option error) :=
  err0 ← invoke CallLoad (Load bc);
  match err0 with
  | Some _ => mret err0
  | None =>
      '(state, err) ← invoke CallParse (Parse bc);
      match err with
      | Some _ => mret err
      | None =>
          created ← invoke CallCreated (Created state);
          cond ← (if negb created
                  then invoke CallChanged (Changed state)
                  else mret false);
          _ ← (if cond : bool
               then invoke (CallNotify "baseInit") (Notify state "baseInit")
               else mret ());
          err1 ← invoke CallSave (Save bc);
          match err1 with
          | Some _ => mret err1
          | None =>
              err2 ← invoke CallTeardown (Teardown state);
              if decide (err2 = None ∨ err2 = Some ErrReload)
              then mret None
              else mret err
          end
      end
  end.

(** [BaseConsumer.Consume], run under the consumer's lock. *)
Definition Consume {W} (bc : ParserLoader W) (e : Event) : Act W (option error) :=
  '(state, err) ← invoke CallParse (Parse bc);
  match err with
  | Some _ => mret err
  | None =>
      changed ← invoke CallChanged (Changed state);
      if negb changed then invoke CallTeardown (Teardown state)
      else
        _ ← invoke (CallNotify (ECom e)) (Notify state (ECom e));
        err1 ← invoke CallSave (Save bc);
        match err1 with
        | Some _ => mret err1
        | None => invoke CallTeardown (Teardown state)
        end
  end.

(** Running engine code from a world with an empty trace. *)
Definition exec {W A} (m : Act W A) (w : W) : A * (W * list call) := m (w, []).

End Consumer.

(** ** [UsersState] *)

(** Modelled from the spec: [ArrayEqual] is declared in a file of the
    package that is not at hand. Teardown is to signal reload when the
    include-list "differs textually" from the previous one, so two
    slices are equal when they hold the same strings in the same order
    (a nil slice and an empty one are both the empty list). *)
Definition ArrayEqual (a b : list string) : bool := bool_decide (a = b).

Module Users.
Import Consumer.

(** What [UsersState] takes from the rest of the package: the user
    record and [userDiff], [UsersListener.parse] reading the sources on
    disk, and the agent database. *)
Class Deps : Type := {
  User : Type;
  userDiff : list User -> list User -> list User * list User;
  Disk : Type;
  parse : Disk -> (list User * list string) * option error;
  DB : Type;
  LoadUsers : DB -> list User * option error;
  SaveUsers : DB -> list User -> option error * DB
}.

Section WithDeps.
Context `{Deps}.

(** [usersState]: one snapshot. *)
Record usersState : Type := mkSnapshot {
  users : list User;
  includes : list string
}.

(** The line [Notify] writes at warn level. *)
Record UsersModified : Type := mkUsersModified {
  log_users : list User;
  log_add : list User;
  log_del : list User;
  processName : string
}.

(** [UsersState] with what its methods reach: [current] and [next]
    (pointers in Go; a snapshot is never written after it is built,
    so sharing one between the two fields is the same as holding its
    value twice, and both are taken to be non-nil), the disk behind
    the embedded listener, its log, and the database handed to
    [Load] and [Save]. *)
Record UsersState : Type := mkUsers {
  current : usersState;
  next : usersState;
  disk : Disk;
  warnings : list UsersModified;
  db : DB
}.

Definition set_current (c : usersState) (us : UsersState) : UsersState :=
  mkUsers c (next us) (disk us) (warnings us) (db us).

Definition set_next (n : usersState) (us : UsersState) : UsersState :=
  mkUsers (current us) n (disk us) (warnings us) (db us).

(** [UsersState.Changed]. *)
Definition Changed (us : UsersState) : bool * UsersState :=
  let '(add, del) := userDiff (users (current us)) (users (next us)) in
  (negb (length add =? 0)%nat || negb (length del =? 0)%nat, us).

(** [UsersState.Created]. *)
Definition Created (us : UsersState) : bool * UsersState :=
  ((length (users (current us)) =? 0)%nat, us).

(** [UsersState.Notify]. *)
Definition Notify (cmd : string) (us : UsersState) : unit * UsersState :=
  let '(add, del) := userDiff (users (current us)) (users (next us)) in
  (tt, mkUsers (current us) (next us) (disk us)
               (warnings us ++ [mkUsersModified (users (next us)) add del cmd])
               (db us)).

(** [UsersState.reload]. *)
Definition reload (us : UsersState) : option error * UsersState :=
  if ArrayEqual (includes (current us)) (includes (next us))
  then (None, us)
  else (Some ErrReload, us).

(** [UsersState.Teardown]: the assignment, then [reload] on the
    receiver as the assignment left it. *)
Definition Teardown (us : UsersState) : option error * UsersState :=
  let us := set_current (next us) us in
  reload us.

Definition asState : State UsersState :=
  mkState Changed Created Notify Teardown.

(** [UsersState.Parse]. On an error Go returns a nil state, which the
    engine never touches. *)
Definition Parse (us : UsersState) : (State UsersState * option error) * UsersState :=
  let '((users, includes), err) := parse (disk us) in
  match err with
  | Some _ => ((asState, err), us)
  | None =>
      let us := set_next (mkSnapshot users includes) us in
      ((asState, None), us)
  end.

(** [UsersState.Save]. *)
Definition Save (us : UsersState) : option error * UsersState :=
  let '(err, db') := SaveUsers (db us) (users (next us)) in
  (err, mkUsers (current us) (next us) (disk us) (warnings us) db').

(** [UsersState.Load]. *)
Definition Load (us : UsersState) : option error * UsersState :=
  let '(users, err) := LoadUsers (db us) in
  match err with
  | Some _ => (err, us)
  | None => (err, set_current (mkSnapshot users []) us)
  end.

Definition asParserLoader : ParserLoader UsersState :=
  mkParserLoader Load Save Parse.

End WithDeps.

End Users.

(** ** Fixtures for concrete runs *)

Module Fixtures.
Import Codec Kernel Watch Consumer.

(** A record with a negative mode and the largest inode number. *)
Definition sample_raw : rawEvent :=
  mkRaw (-1) 4242 1000 17 (2 ^ 64 - 1) 2049
    (list_byte_of_string "bash" ++ replicate 12 x00).

(** A file system with two hard links to one file, and one file on
    another device that happens to carry the same inode number. *)
Definition fs_links : FS := λ name,
  if String.eqb name "/etc/passwd" then inl (mkStat 2049 131)
  else if String.eqb name "/etc/passwd.link" then inl (mkStat 2049 131)
  else if String.eqb name "/mnt/usb/notes" then inl (mkStat 2065 131)
  else if String.eqb name "/etc/shadow" then inl (mkStat 2049 140)
  else inr (Errno ENOENT).

(** A file system in which every file has its own inode number. *)
Definition fs_plain : FS := λ name,
  if String.eqb name "/etc/passwd" then inl (mkStat 2049 131)
  else if String.eqb name "/etc/shadow" then inl (mkStat 2049 140)
  else if String.eqb name "/root/.ssh/authorized_keys" then inr (Errno EACCES)
  else inr (Errno ENOENT).

(** [fs_plain] after /etc/passwd has been rewritten through a temporary
    file renamed over it: the path now leads to a new inode. *)
Definition fs_replaced : FS := λ name,
  if String.eqb name "/etc/passwd" then inl (mkStat 2049 207)
  else fs_plain name.

(** A freshly initialised monitor over an empty table of 64 slots. *)
Definition fim0 : FIM HashTable := InitFIM (mkHashTable ∅ 64).

(** The monitor after [Add "/etc/passwd"], once the kernel side has lost
    the registration: [StopBPF] deletes every key from the kernel table
    and leaves the two maps as they are. *)
Definition fim_unregistered : FIM HashTable :=
  let f := (Add fs_plain fim0 "/etc/passwd").2 in
  after_kcall (hash_delete (RulesTable f) 131).1 (KDelete 131) f.

(** Registering both links of one file. *)
Definition ops_links : list op :=
  [OpAdd fs_links "/etc/passwd"; OpAdd fs_links "/etc/passwd.link"].

(** Registering two files and dropping the first again. *)
Definition ops_plain : list op :=
  [OpAdd fs_plain "/etc/passwd"; OpAdd fs_plain "/etc/shadow";
   OpRemove "/etc/passwd"].

(** A record from a process whose short name fills all sixteen bytes
    of the comm field, for a file that is being watched. *)
Definition raw_full_comm : rawEvent :=
  mkRaw 0 4242 0 64 131 2049 (list_byte_of_string "systemd-journald").

(** A record for an inode that no path is registered under. *)
Definition raw_stale : rawEvent :=
  mkRaw 0 4242 0 64 977 2049 (list_byte_of_string "vi" ++ replicate 14 x00).

(** /proc after every writer has exited: no cmdline can be opened. *)
Definition proc_gone : Pipeline.Proc := λ _, None.

(** /proc with one live process. *)
Definition proc_live : Pipeline.Proc := λ pid,
  if decide (pid = 4242)
  then Some [("vi" ++ String.String Ascii.zero "/etc/passwd")%string]
  else None.

(** The monitor watching /etc/passwd. *)
Definition fim_passwd : FIM HashTable := (Add fs_plain fim0 "/etc/passwd").2.

(** Modelled from the spec: the user record and [userDiff] are declared
    in a file of the package that is not at hand. Users are taken by
    name, and the diff is the "set-difference" of §4.5: added are the
    users of [next] missing from [current], removed the users of
    [current] missing from [next]. The disk is what [parse] returns
    and the database the stored list with the error a save is to give
    (a failing save stores nothing). *)
#[global] Instance names_Deps : Users.Deps := {
  Users.User := string;
  Users.userDiff cur nxt :=
    (filter (λ u, u ∉ cur) nxt, filter (λ u, u ∉ nxt) cur);
  Users.Disk := (list string * list string) * option error;
  Users.parse d := d;
  Users.DB := list string * option error;
  Users.LoadUsers d := (d.1, None);
  Users.SaveUsers d us :=
    match d.2 with
    | Some _ => (d.2, d)
    | None => (None, (us, None))
    end
}.

(** A users consumer before [Init]: nothing loaded yet, [stored] in the
    database, and [onDisk] with [inc] for [parse] to find. *)
Definition users0 (stored onDisk inc : list string) : Users.UsersState :=
  Users.mkUsers (Users.mkSnapshot [] []) (Users.mkSnapshot [] [])
                ((onDisk, inc), None) [] (stored, None).

(** A users consumer during [Consume]: [cur] committed with the
    include list [curInc], and [onDisk] with [inc] for [parse] to find. *)
Definition users1 (cur curInc onDisk inc : list string) : Users.UsersState :=
  Users.mkUsers (Users.mkSnapshot cur curInc) (Users.mkSnapshot [] [])
                ((onDisk, inc), None) [] (cur, None).

(** A parsed users state whose include list has moved from one home
    directory to another while the users stayed the same. *)
Definition users_moved : Users.UsersState :=
  Users.mkUsers
    (Users.mkSnapshot ["alice"%string] ["/home/alice/.ssh/authorized_keys"%string])
    (Users.mkSnapshot ["alice"%string] ["/srv/alice/.ssh/authorized_keys"%string])
    ((["alice"%string], ["/srv/alice/.ssh/authorized_keys"%string]), None)
    [] (["alice"%string], None).

(** An event as the pipeline delivers it. *)
Definition event_passwd : Event :=
  mkEvent 0 4242 0 64 131 2049 "vi /etc/passwd" "/etc/passwd".

(** A consumer whose state cannot be committed: [Teardown] fails with
    an error of its own. Everything else succeeds and changes nothing. *)
Definition stuckState (msg : string) : State unit :=
  mkState (λ w, (false, w)) (λ w, (false, w)) (λ _ w, (tt, w))
          (λ w, (Some (ErrorString msg), w)).

Definition stuckConsumer (msg : string) : ParserLoader unit :=
  mkParserLoader (λ w, (None, w)) (λ w, (None, w))
                 (λ w, ((stuckState msg, None), w)).

End Fixtures.

(** ** The two polling loops, [FIM.Stats] and [FIM.StopBPF] *)

Module Loops.
Import Codec Kernel Watch Pipeline.

(** What the two goroutines of [FIM.start] receive until they are told
    to stop: a buffer on [eventChannel], read while /proc is as [proc]
    has it, or a count on [missedChannel]. The two loops share nothing
    but the [Errors] channel, so a run of both is the list of what they
    received, in the order in which it was handled. *)
Inductive input : Type :=
| Data (proc : Proc) (data : list byte)
| Missed (missedCount : Z).

Section Loops.
Context {K : Type} `{!RulesMap K}.

(** [case missedCount, ok := <-missedChannel] with [ok] true: the count
    is reported through [FIM.error]. *)
Definition on_missed (missedCount : Z) (f : FIM K) : FIM K :=
  error_send (ErrorString ("log message count: " +:+ pretty missedCount)) f.

Definition on_input (f : FIM K) (i : input) : FIM K :=
  match i with
  | Data proc data => on_data proc f data
  | Missed missedCount => on_missed missedCount f
  end.

(** The monitor after the loops have handled [inputs]. *)
Definition poll (inputs : list input) (f : FIM K) : FIM K :=
  foldl on_input f inputs.

(** [FIM.Stats]: [Range] over [mapping] adds one per entry. *)
Definition Stats (f : FIM K) : string :=
  let count := size (mapping f) in
  "Currently watching " +:+ pretty count +:+ " files".

Definition set_table (t : K) (f : FIM K) : FIM K :=
  mkFIM (mapping f) (reverse f) t (Events f) (Errors f) (Logger f) (kcalls f).

(** The callback that [StopBPF] hands to [mapping.Range]: delete the
    key from the kernel table, log a failure (the line names the key;
    the error's text is not kept) and go on. *)
Definition StopBPF_visit (f : FIM K) (entry : Z * string) : FIM K :=
  let ukey := entry.1 in
  let '(t, err) := DeleteElement (RulesTable f) ukey in
  let f := after_kcall t (KDelete ukey) f in
  match err with
  | Some _ => log_error (mkLog "error removing key: %v, with error %s" [ukey]) f
  | None => f
  end.

(** [FIM.StopBPF], as far as the monitor's own state goes (stopping the
    poll and closing [closeChannelLoops] end the two loops above).
    [order] lists the entries of [mapping] in the order in which [Range]
    visits them, which [sync.Map] leaves open; [close] is
    [Module.Close]. *)
Definition StopBPF (close : K → K * option error) (order : list (Z * string))
    (f : FIM K) : option error * FIM K :=
  let f := foldl StopBPF_visit f order in
  let '(t, err) := close (RulesTable f) in
  let f := set_table t f in
  match err with
  | Some _ => (err, log_error (mkLog "Error closing module: %v" []) f)
  | None => (None, f)
  end.

(** A call of the registration API or something for the loops to
    handle. *)
Inductive action : Type :=
| Call (o : op)
| Receive (i : input).

Definition act (f : FIM K) (a : action) : FIM K :=
  match a with
  | Call o => (step f o).2
  | Receive i => on_input f i
  end.

Definition run_actions (actions : list action) (f : FIM K) : FIM K :=
  foldl act f actions.

End Loops.

(** A kernel table that does what its return values say: [keys] gives
    the keys it holds; an update that returns nil has added its key, a
    delete that returns nil has removed its key, and a call that returns
    an error has left the keys as they were. *)
Class TableLaws (K : Type) `{!RulesMap K} (keys : K → gset Z) : Prop := {
  update_nil : ∀ t key value flags t',
    UpdateElement t key value flags = (t', None) → keys t' = {[key]} ∪ keys t;
  update_error : ∀ t key value flags t' err,
    UpdateElement t key value flags = (t', Some err) → keys t' = keys t;
  delete_nil : ∀ t key t',
    DeleteElement t key = (t', None) → keys t' = keys t ∖ {[key]};
  delete_error : ∀ t key t' err,
    DeleteElement t key = (t', Some err) → keys t' = keys t
}.

End Loops.

(** ** [BaseConsumer.Register] and the watch-gap handler *)

Module Registry.
Import Codec Kernel.

(** [BaseConsumer.Register]: every file that [ParserLoader.Register]
    lists, here [files], is stored with the consumer [bc] as its value. *)
Definition Register {C : Type} (files : list string) (bc : C) : gmap string C :=
  foldl (λ consumers file, <[file := bc]> consumers) ∅ files.

(** [FileMissing.start]: one [os.Stat] per tick of the ten-second
    ticker, [ticks] being the file system at each tick; the first
    success sends the event and ends the loop. The result is [events]
    with what was sent on it. *)
Fixpoint start (File : string) (ticks : list FS) (events : list Event)
    : list Event :=
  match ticks with
  | [] => events
  | fs :: rest =>
      match fs File with
      | inl _ => events ++ [mkEvent 1 0 0 0 0 0 EmptyString File]
      | inr _ => start File rest events
      end
  end.

(** [FileMissing.Register]: the handler [fm] itself under [File], unless
    the file is there by now, in which case whatever the wrapped
    consumer registers ([inner]; nil for the no-op consumer). *)
Definition FileMissing_Register {C : Type} (fs : FS) (File : string) (fm : C)
    (inner : option (gmap string C)) : option (gmap string C) :=
  let out := Some {[ File := fm ]} in
  match fs File with
  | inl _ => inner
  | inr _ => out
  end.

End Registry.

(** ** [AccessState] *)

Module Accesses.
Import Consumer.

(** What [AccessState] takes from the rest of the package: the rule
    list with [accessDiff] and [IsEmpty], [AccessListener.parse], and
    the agent database. *)
Class Deps : Type := {
  Access : Type;
  accessDiff : Access → Access → Access * Access;
  IsEmpty : Access → bool;
  Disk : Type;
  parse : Disk → Access * option error;
  DB : Type;
  LoadAccess : DB → Access * option error;
  SaveAccess : DB → Access → option error * DB
}.

Section WithDeps.
Context `{Deps}.

(** The line [Notify] writes at warn level. *)
Record AccessEntries : Type := mkAccessEntries {
  log_access : Access;
  log_add : Access;
  log_del : Access;
  processName : string
}.

(** [AccessState] with what its methods reach. *)
Record AccessState : Type := mkAccess {
  current : Access;
  next : Access;
  disk : Disk;
  warnings : list AccessEntries;
  db : DB
}.

(** [AccessState.Changed]. *)
Definition Changed (as_ : AccessState) : bool * AccessState :=
  let '(add, del) := accessDiff (current as_) (next as_) in
  (negb (IsEmpty add) || negb (IsEmpty del), as_).

(** [AccessState.Created]. *)
Definition Created (as_ : AccessState) : bool * AccessState :=
  (IsEmpty (current as_), as_).

(** [AccessState.Notify]. *)
Definition Notify (cmd : string) (as_ : AccessState) : unit * AccessState :=
  let '(add, del) := accessDiff (current as_) (next as_) in
  (tt, mkAccess (current as_) (next as_) (disk as_)
                (warnings as_ ++ [mkAccessEntries (next as_) add del cmd])
                (db as_)).

(** [AccessState.Teardown]. *)
Definition Teardown (as_ : AccessState) : option error * AccessState :=
  (None, mkAccess (next as_) (next as_) (disk as_) (warnings as_) (db as_)).

Definition asState : State AccessState :=
  mkState Changed Created Notify Teardown.

(** [AccessState.Parse]. *)
Definition Parse (as_ : AccessState)
    : (State AccessState * option error) * AccessState :=
  let '(access, err) := parse (disk as_) in
  match err with
  | Some _ => ((asState, err), as_)
  | None =>
      ((asState, None),
       mkAccess (current as_) access (disk as_) (warnings as_) (db as_))
  end.

(** [AccessState.Save]. *)
Definition Save (as_ : AccessState) : option error * AccessState :=
  let '(err, db') := SaveAccess (db as_) (next as_) in
  (err, mkAccess (current as_) (next as_) (disk as_) (warnings as_) db').

(** [AccessState.Load]: [as.current, err = db.LoadAccess()] assigns
    whatever comes back, error or not. *)
Definition Load (as_ : AccessState) : option error * AccessState :=
  let '(access, err) := LoadAccess (db as_) in
  (err, mkAccess access (next as_) (disk as_) (warnings as_) (db as_)).

Definition asParserLoader : ParserLoader AccessState :=
  mkParserLoader Load Save Parse.

End WithDeps.

End Accesses.

(** ** More fixtures *)

Module MoreFixtures.
Import Codec Kernel Watch Pipeline Loops Consumer Fixtures.

(** A record from vi for the watched /etc/passwd. *)
Definition raw_vi : rawEvent :=
  mkRaw 0 4242 0 64 131 2049 (list_byte_of_string "vi" ++ replicate 14 x00).

(** A day in the life of the monitor: a file is registered, a record
    arrives for an inode nobody registered, the kernel reports three
    lost records, a truncated buffer arrives, the file is written to
    and then unregistered. *)
Definition a_day : list action :=
  [Call (OpAdd fs_plain "/etc/passwd");
   Receive (Data proc_gone (Encode raw_stale).1);
   Receive (Missed 3);
   Receive (Data proc_gone [x01; x02]);
   Receive (Data proc_live (Encode raw_vi).1);
   Call (OpRemove "/etc/passwd")].

(** A module that closes without complaint. *)
Definition close_ok : HashTable → HashTable * option error := λ t, (t, None).

(** Modelled from the spec: the rule list, [accessDiff] and [IsEmpty]
    are declared in a file of the package that is not at hand. Rules are
    taken as one line each, the diff is the "set-style difference" of
    §4.6, and a list is empty when it has no rule. The disk is what
    [parse] returns and the database the stored rules with the error a
    save is to give (a failing save stores nothing). *)
#[global] Instance lines_Deps : Accesses.Deps := {
  Accesses.Access := list string;
  Accesses.accessDiff cur nxt :=
    (filter (λ r, r ∉ cur) nxt, filter (λ r, r ∉ nxt) cur);
  Accesses.IsEmpty a := bool_decide (a = []);
  Accesses.Disk := list string * option error;
  Accesses.parse d := d;
  Accesses.DB := list string * option error;
  Accesses.LoadAccess d := (d.1, None);
  Accesses.SaveAccess d a :=
    match d.2 with
    | Some _ => (d.2, d)
    | None => (None, (a, None))
    end
}.

(** An access consumer with [cur] committed and [onDisk] for [parse] to
    find; saving fails with [saveErr] if that is an error. *)
Definition access1 (cur onDisk : list string) (saveErr : option error)
    : Accesses.AccessState :=
  Accesses.mkAccess cur [] (onDisk, None) [] (cur, saveErr).

(** A users consumer like [users1] whose database refuses to save. *)
Definition users_readonly (cur onDisk : list string) : Users.UsersState :=
  Users.mkUsers (Users.mkSnapshot cur []) (Users.mkSnapshot [] [])
                ((onDisk, []), None) [] (cur, Some (ErrorString "read-only database")).

(** The file system before and after /etc/shadow is created. *)
Definition fs_before : FS := λ name,
  if String.eqb name "/etc/passwd" then inl (mkStat 2049 131)
  else inr (Errno ENOENT).

End MoreFixtures.

(* ================================================================= *)
(** * Part II: properties *)
(* ================================================================= *)

Module CodecFacts.
Import Codec Fixtures.

Lemma Z_of_byte_of_Z (v : Z) : Z_of_byte (byte_of_Z v) = Z.land v 255.
Proof.
  unfold Z_of_byte, byte_of_Z.
  assert (Hr : 0 <= Z.land v 255 < 256).
  { change 255 with (Z.ones 8). rewrite Z.land_ones by lia.
    apply Z.mod_pos_bound. lia. }
  pose proof (Byte.to_of_N_option_map (Z.to_N (Z.land v 255))) as H.
  destruct (N.leb_spec (Z.to_N (Z.land v 255)) 255) as [_|Hgt]; [|lia].
  destruct (Byte.of_N (Z.to_N (Z.land v 255))) as [b|]; [|discriminate].
  simpl in *. injection H as ->. lia.
Qed.

Lemma length_PutUint (w : nat) (v : Z) : length (PutUint w v) = w.
Proof. revert v. induction w as [|w IH]; intros v; simpl; [done|]. by rewrite IH. Qed.

(** Reading back what [PutUint] wrote gives the low [8*w] bits. *)
Lemma Uint_PutUint (w : nat) (v : Z) :
  Uint (PutUint w v) = Z.land v (Z.ones (8 * Z.of_nat w)).
Proof.
  revert v. induction w as [|w IH]; intros v.
  - simpl. by rewrite Z.land_0_r.
  - cbn [PutUint Uint]. rewrite IH, Z_of_byte_of_Z.
    change 255 with (Z.ones 8).
    apply Z.bits_inj'. intros k Hk.
    rewrite Z.lor_spec, !Z.land_spec.
    destruct (Z.lt_ge_cases k 8) as [Hlt|Hge].
    + rewrite Z.shiftl_spec_low by lia.
      rewrite !Z.ones_spec_low by lia. by rewrite orb_false_r.
    + rewrite Z.shiftl_spec by lia.
      rewrite Z.land_spec, Z.shiftr_spec by lia.
      rewrite (Z.ones_spec_high 8) by lia.
      rewrite andb_false_r, orb_false_l.
      replace (k - 8 + 8) with k by lia.
      f_equal.
      destruct (Z.lt_ge_cases k (8 * Z.of_nat (S w))).
      * rewrite !Z.ones_spec_low by lia. done.
      * rewrite !Z.ones_spec_high by lia. done.
Qed.

Lemma Uint_PutUint_id (w : nat) (v : Z) :
  0 <= v < 2 ^ (8 * Z.of_nat w) -> Uint (PutUint w v) = v.
Proof.
  intros Hv. rewrite Uint_PutUint, Z.land_ones by lia.
  apply Z.mod_small. lia.
Qed.

Lemma Uint_uint32_of_int32 (v : Z) :
  Uint (PutUint 4 (uint32_of_int32 v)) = uint32_of_int32 v.
Proof.
  rewrite Uint_PutUint. unfold uint32_of_int32.
  change (8 * Z.of_nat 4) with 32.
  by rewrite <- Z.land_assoc, Z.land_diag.
Qed.

Lemma int32_roundtrip (v : Z) :
  - 2 ^ 31 <= v < 2 ^ 31 -> int32_of_uint32 (uint32_of_int32 v) = v.
Proof.
  intros Hv. unfold int32_of_uint32, uint32_of_int32.
  rewrite Z.land_spec, Z.ones_spec_low, andb_true_r by lia.
  rewrite Z.land_ones by lia.
  destruct (Z.testbit v 31) eqn:Hb.
  - assert (v < 0).
    { destruct (Z.lt_ge_cases v 0); [done|].
      rewrite (Z.bits_above_log2 v 31) in Hb; [done|lia|].
      destruct (Z.eq_dec v 0) as [->|]; [simpl; lia|].
      apply Z.log2_lt_pow2; lia. }
    rewrite <- (Z.mod_add v 1 (2 ^ 32)) by lia.
    rewrite Z.mod_small; lia.
  - assert (0 <= v).
    { destruct (Z.lt_ge_cases v 0) as [Hneg|]; [|done].
      rewrite (Z.bits_above_log2_neg v 31) in Hb; [done|lia|].
      destruct (Z.eq_dec v (-1)) as [->|]; [simpl; lia|].
      assert (Z.log2 (Z.pred (- v)) < 31); [|lia].
      apply Z.log2_lt_pow2; lia. }
    apply Z.mod_small. lia.
Qed.

Lemma length_Encode (e : rawEvent) :
  length (Com e) = taskComLen -> length (Encode e).1 = rawEventSize.
Proof.
  intros Hc. unfold Encode, binary_Write. cbn [fst].
  rewrite !length_app, !length_PutUint, Hc. reflexivity.
Qed.

(** Splitting a buffer whose first field has the expected width. *)
Lemma take_field (w : nat) (v : Z) (rest : list byte) :
  take w (PutUint w v ++ rest) = PutUint w v.
Proof. apply take_app_length'. by rewrite length_PutUint. Qed.

Lemma drop_field (w : nat) (v : Z) (rest : list byte) :
  drop w (PutUint w v ++ rest) = rest.
Proof. apply drop_app_length'. by rewrite length_PutUint. Qed.

(** C4: for every rawEvent within type range, [Encode] yields 48 bytes
    with a nil error, and decoding those bytes with the little-endian
    layout mode(4) pid(4) uid(4) size(4) inode(8) device(8) comm(16)
    gives back the original field values. *)
Theorem Encode_Decode_roundtrip (e : rawEvent) :
  in_range e ->
  length (Encode e).1 = 48%nat /\
  (Encode e).2 = None /\
  binary_Read (Encode e).1 = inl e.
Proof.
  intros Hr. pose proof Hr as (Hm & Hp & Hu & Hs & Hi & Hd & Hc).
  split; [by apply length_Encode|]. split; [reflexivity|].
  unfold binary_Read.
  rewrite (length_Encode e Hc).
  destruct (decide (rawEventSize = 0%nat)) as [Hz|_]; [discriminate Hz|].
  destruct (decide (rawEventSize < rawEventSize)%nat) as [Hlt|_]; [lia|].
  unfold Encode, binary_Write. cbn [fst].
  repeat first [rewrite take_field | rewrite drop_field].
  rewrite (take_ge (Com e)) by (rewrite Hc; done).
  rewrite Uint_uint32_of_int32, int32_roundtrip by done.
  rewrite !Uint_PutUint_id by (simpl; lia).
  by destruct e.
Qed.

Lemma Encode_Decode_roundtrip_witness :
  in_range sample_raw /\ binary_Read (Encode sample_raw).1 = inl sample_raw.
Proof.
  assert (H : in_range sample_raw).
  { unfold in_range, sample_raw; simpl. repeat split; lia. }
  split; [exact H|].
  exact (proj2 (proj2 (Encode_Decode_roundtrip sample_raw H))).
Defined.

(** A record cut short is rejected whole. *)
Example binary_Read_short :
  binary_Read (take 47 (Encode sample_raw).1) = inr ErrUnexpectedEOF.
Proof. vm_compute. reflexivity. Qed.

Example binary_Read_empty : binary_Read [] = inr EOF.
Proof. reflexivity. Qed.

End CodecFacts.

Module WatchFacts.
Import Codec Kernel Watch Fixtures.

Section Facts.
Context {K : Type} `{!RulesMap K}.
Implicit Types (f : FIM K) (fs : FS) (name : string) (key : Z).

Lemma NewKey_found fs name st :
  fs name = inl st → NewKey fs name = (Ino st, None).
Proof. intros Hst. unfold NewKey. by rewrite Hst. Qed.

Lemma NewKey_failed fs name err :
  fs name = inr err → NewKey fs name = (0, Some err).
Proof. intros Hst. unfold NewKey. by rewrite Hst. Qed.

(** The three ways out of [Add]. *)
Lemma Add_lookup_error fs f name err :
  fs name = inr err → Add fs f name = (Some err, f).
Proof. intros Hst. unfold Add. by rewrite (NewKey_failed _ _ _ Hst). Qed.

Lemma Add_kernel_error fs f name st t err :
  fs name = inl st →
  UpdateElement (RulesTable f) (Ino st) 1 bpfAny = (t, Some err) →
  Add fs f name = (Some err, after_kcall t (KUpdate (Ino st) 1 bpfAny) f).
Proof.
  intros Hst Hup. unfold Add. by rewrite (NewKey_found _ _ _ Hst), Hup.
Qed.

Lemma Add_success fs f name st t :
  fs name = inl st →
  UpdateElement (RulesTable f) (Ino st) 1 bpfAny = (t, None) →
  Add fs f name =
    (None, mkFIM (<[Ino st := name]> (mapping f)) (<[name := Ino st]> (reverse f))
                 t (Events f) (Errors f) (Logger f)
                 (kcalls f ++ [KUpdate (Ino st) 1 bpfAny])).
Proof.
  intros Hst Hup. unfold Add. by rewrite (NewKey_found _ _ _ Hst), Hup.
Qed.

(** The three ways out of [Remove]. *)
Lemma Remove_unknown f name :
  reverse f !! name = None →
  Remove f name = (Some (ErrorString "error getting key"), f).
Proof. intros Hr. unfold Remove. by rewrite Hr. Qed.

Lemma Remove_kernel_error f name key t err :
  reverse f !! name = Some key →
  DeleteElement (RulesTable f) key = (t, Some err) →
  Remove f name = (Some err, after_kcall t (KDelete key) f).
Proof. intros Hr Hd. unfold Remove. by rewrite Hr, Hd. Qed.

Lemma Remove_success f name key t :
  reverse f !! name = Some key →
  DeleteElement (RulesTable f) key = (t, None) →
  Remove f name =
    (None, mkFIM (delete key (mapping f)) (delete name (reverse f))
                 t (Events f) (Errors f) (Logger f)
                 (kcalls f ++ [KDelete key])).
Proof.
  intros Hr Hd. unfold Remove. rewrite Hr, Hd. simpl. by rewrite Hr.
Qed.

(** [Add] and [Remove] leave the maps alone unless they return nil. *)
Lemma Add_error_keeps_maps fs f name err f' :
  Add fs f name = (Some err, f') →
  mapping f' = mapping f ∧ reverse f' = reverse f.
Proof.
  destruct (fs name) as [st|e] eqn:Hst.
  - destruct (UpdateElement (RulesTable f) (Ino st) 1 bpfAny) as [t [e|]] eqn:Hup.
    + rewrite (Add_kernel_error _ _ _ _ _ _ Hst Hup). by intros [= _ <-].
    + rewrite (Add_success _ _ _ _ _ Hst Hup). discriminate.
  - rewrite (Add_lookup_error _ _ _ _ Hst). by intros [= _ <-].
Qed.

Lemma Remove_error_keeps_maps f name err f' :
  Remove f name = (Some err, f') →
  mapping f' = mapping f ∧ reverse f' = reverse f.
Proof.
  destruct (reverse f !! name) as [key|] eqn:Hr.
  - destruct (DeleteElement (RulesTable f) key) as [t [e|]] eqn:Hd.
    + rewrite (Remove_kernel_error _ _ _ _ _ Hr Hd). by intros [= _ <-].
    + rewrite (Remove_success _ _ _ _ Hr Hd). discriminate.
  - rewrite (Remove_unknown _ _ Hr). by intros [= _ <-].
Qed.

(** *** Lookup failures and the choice of key *)

(** C3 (amended): the key that [Add] registers for a path is the
    file's current inode number alone, so two files with equal inode
    numbers get the same key whatever their devices; when the lookup
    fails, [Add] returns the lookup's error and changes neither map
    nor the kernel table, and makes no call to the kernel. *)
Theorem Add_key_is_inode fs f name :
  (∀ st, fs name = inl st →
     NewKey fs name = (Ino st, None) ∧
     (∀ name' st', fs name' = inl st' → Ino st' = Ino st →
        NewKey fs name' = NewKey fs name) ∧
     (∀ f', Add fs f name = (None, f') →
        reverse f' !! name = Some (Ino st) ∧
        mapping f' !! Ino st = Some name ∧
        kcalls f' = kcalls f ++ [KUpdate (Ino st) 1 bpfAny])) ∧
  (∀ err, fs name = inr err → Add fs f name = (Some err, f)).
Proof.
  split.
  - intros st Hst. split; [by apply NewKey_found|]. split.
    + intros name' st' Hst' Hino.
      by rewrite (NewKey_found _ _ _ Hst), (NewKey_found _ _ _ Hst'), Hino.
    + intros f'.
      destruct (UpdateElement (RulesTable f) (Ino st) 1 bpfAny) as [t [e|]] eqn:Hup.
      * rewrite (Add_kernel_error _ _ _ _ _ _ Hst Hup). discriminate.
      * rewrite (Add_success _ _ _ _ _ Hst Hup). intros [= <-]. simpl.
        by rewrite !lookup_insert_eq.
  - intros err Hst. by apply Add_lookup_error.
Qed.

(** *** A failed kernel delete *)

(** C2 (amended): when the kernel-side delete fails for a registered
    path, [Remove] returns the kernel's error and leaves both entries
    of the local bookkeeping in place; a later [Add] of a path with
    that key is not blocked all the same, since [Add] never consults
    the bookkeeping and overwrites both entries. *)
Theorem Remove_kernel_failure f name key t err :
  reverse f !! name = Some key →
  DeleteElement (RulesTable f) key = (t, Some err) →
  ∃ f', Remove f name = (Some err, f') ∧
        reverse f' = reverse f ∧
        mapping f' = mapping f ∧
        kcalls f' = kcalls f ++ [KDelete key] ∧
        ∀ fs name' st t',
          fs name' = inl st → Ino st = key →
          UpdateElement (RulesTable f') key 1 bpfAny = (t', None) →
          ∃ f'', Add fs f' name' = (None, f'') ∧
                 reverse f'' !! name' = Some key ∧
                 mapping f'' !! key = Some name'.
Proof.
  intros Hr Hd. eexists. split; [by apply Remove_kernel_error|].
  repeat split. intros fs name' st t' Hst <- Hup.
  eexists. split; [by apply Add_success|]. simpl.
  by rewrite !lookup_insert_eq.
Qed.

(** *** Consistency of the two views *)

Lemma InitFIM_consistent (t : K) : consistent (InitFIM t).
Proof. intros name key. simpl. by rewrite !lookup_empty. Qed.

Lemma InitFIM_keyed_by fs0 (t : K) : keyed_by fs0 (InitFIM t).
Proof. intros name key. simpl. by rewrite lookup_empty. Qed.

Lemma Add_keeps_views fs0 fs f name :
  one_path_per_inode fs0 → fs name = fs0 name →
  consistent f → keyed_by fs0 f →
  consistent (Add fs f name).2 ∧ keyed_by fs0 (Add fs f name).2.
Proof.
  intros Hinj Hfs Hc Hk.
  destruct (Add fs f name) as [[e|] f'] eqn:HA.
  { apply Add_error_keeps_maps in HA as [Hm Hr].
    unfold consistent, keyed_by. simpl. rewrite Hm, Hr. done. }
  destruct (fs name) as [st|e] eqn:Hst.
  2:{ rewrite (Add_lookup_error _ _ _ _ Hst) in HA. discriminate. }
  destruct (UpdateElement (RulesTable f) (Ino st) 1 bpfAny) as [t [e|]] eqn:Hup.
  { rewrite (Add_kernel_error _ _ _ _ _ _ Hst Hup) in HA. discriminate. }
  rewrite (Add_success _ _ _ _ _ Hst Hup) in HA. injection HA as <-.
  split.
  - intros n k. simpl. rewrite !lookup_insert_Some. split.
    + intros [[<- <-]|[Hne Hn]]; [by left|]. right.
      destruct (Hk _ _ Hn) as (st' & Hst' & Hi).
      split; [|by apply Hc].
      intros Heq. apply Hne.
      apply (Hinj _ _ _ _ (eq_sym Hfs) Hst'). congruence.
    + intros [[<- <-]|[Hne Hn]]; [by left|]. right.
      apply Hc in Hn. split; [|done].
      intros Heq. subst n. destruct (Hk _ _ Hn) as (st' & Hst' & Hi).
      rewrite <- Hfs in Hst'. congruence.
  - intros n k. simpl. rewrite lookup_insert_Some.
    intros [[<- <-]|[Hne Hn]]; [|by apply Hk].
    exists st. by rewrite <- Hfs.
Qed.

Lemma Remove_keeps_views fs0 f name :
  consistent f → keyed_by fs0 f →
  consistent (Remove f name).2 ∧ keyed_by fs0 (Remove f name).2.
Proof.
  intros Hc Hk.
  destruct (Remove f name) as [[e|] f'] eqn:HR.
  { apply Remove_error_keeps_maps in HR as [Hm Hr].
    unfold consistent, keyed_by. simpl. rewrite Hm, Hr. done. }
  destruct (reverse f !! name) as [key|] eqn:Hr.
  2:{ rewrite (Remove_unknown _ _ Hr) in HR. discriminate. }
  destruct (DeleteElement (RulesTable f) key) as [t [e|]] eqn:Hd.
  { rewrite (Remove_kernel_error _ _ _ _ _ Hr Hd) in HR. discriminate. }
  rewrite (Remove_success _ _ _ _ Hr Hd) in HR. injection HR as <-.
  split.
  - intros n k. simpl. rewrite !lookup_delete_Some. split.
    + intros [Hne Hn]. split; [|by apply Hc].
      intros Heq. subst k. apply Hc in Hr, Hn. congruence.
    + intros [Hne Hn]. split; [|by apply Hc].
      intros Heq. subst n. apply Hc in Hn. congruence.
  - intros n k. simpl. rewrite lookup_delete_Some.
    intros [_ Hn]. by apply Hk.
Qed.

Lemma run_keeps_views fs0 ops f :
  one_path_per_inode fs0 → Forall (stat_as fs0) ops →
  consistent f → keyed_by fs0 f →
  consistent (run ops f) ∧ keyed_by fs0 (run ops f).
Proof.
  intros Hinj Hops. revert f.
  induction Hops as [|o ops Ho _ IH]; intros f Hc Hk; [done|].
  change (run (o :: ops) f) with (run ops (step f o).2).
  destruct o as [fs name|name]; simpl in Ho |- *.
  - destruct (Add_keeps_views fs0 fs f name) as [Hc' Hk']; auto.
  - destruct (Remove_keeps_views fs0 f name) as [Hc' Hk']; auto.
Qed.

Lemma Remove_unregisters f name key f' :
  reverse f !! name = Some key →
  Remove f name = (None, f') →
  Resolve f' key = None ∧ reverse f' !! name = None.
Proof.
  intros Hr HR.
  destruct (DeleteElement (RulesTable f) key) as [t [e|]] eqn:Hd.
  { rewrite (Remove_kernel_error _ _ _ _ _ Hr Hd) in HR. discriminate. }
  rewrite (Remove_success _ _ _ _ Hr Hd) in HR. injection HR as <-.
  unfold Resolve. simpl. by rewrite !lookup_delete_eq.
Qed.

(** C5 (amended): for every finite sequence of [Add] and [Remove]
    calls on a fresh table, made while each path keeps one inode
    number and no two paths share one, the path-to-key and the
    key-to-path views stay mutually consistent; and after any
    successful [Remove] of a path, the key that was registered for it
    no longer resolves to a path. *)
Theorem views_consistent fs0 ops (t : K) :
  one_path_per_inode fs0 → Forall (stat_as fs0) ops →
  consistent (run ops (InitFIM t)) ∧
  ∀ f name key f',
    reverse f !! name = Some key →
    Remove f name = (None, f') →
    Resolve f' key = None.
Proof.
  intros Hinj Hops. split.
  - apply (run_keeps_views fs0); auto using InitFIM_consistent, InitFIM_keyed_by.
  - intros f name key f' Hr HR. by destruct (Remove_unregisters f name key f').
Qed.

End Facts.

(** *** Concrete runs *)

(** The claim of C3 fails as stated: a file on another device with the
    same inode number gets the same key. *)
Lemma NewKey_same_across_devices :
  ¬ (∀ (fs : FS) (p q : string) (sp sq : Stat_t),
       fs p = inl sp → fs q = inl sq →
       Dev sp ≠ Dev sq → Ino sp = Ino sq →
       (NewKey fs p).1 ≠ (NewKey fs q).1).
Proof.
  intros Hclaim.
  apply (Hclaim fs_links "/etc/passwd" "/mnt/usb/notes"
                (mkStat 2049 131) (mkStat 2065 131));
    try reflexivity.
  simpl. lia.
Qed.

Lemma Add_key_is_inode_witness :
  NewKey fs_links "/mnt/usb/notes" = (131, None) ∧
  Add fs_links fim0 "/no/such/file" = (Some (Errno ENOENT), fim0).
Proof.
  split.
  - exact (proj1 (proj1 (Add_key_is_inode fs_links fim0 "/mnt/usb/notes")
                        (mkStat 2065 131) eq_refl)).
  - exact (proj2 (Add_key_is_inode fs_links fim0 "/no/such/file")
                 (Errno ENOENT) eq_refl).
Defined.

(** The claim of C2 fails as stated: the kernel delete fails, the error
    comes back, and both entries are still there. *)
Lemma Remove_failure_keeps_bookkeeping :
  reverse fim_unregistered !! "/etc/passwd" = Some 131 ∧
  (DeleteElement (RulesTable fim_unregistered) 131).2 = Some (Errno ENOENT) ∧
  (Remove fim_unregistered "/etc/passwd").1 = Some (Errno ENOENT) ∧
  reverse (Remove fim_unregistered "/etc/passwd").2 !! "/etc/passwd" = Some 131 ∧
  mapping (Remove fim_unregistered "/etc/passwd").2 !! 131 = Some "/etc/passwd".
Proof. vm_compute. done. Qed.

Lemma Remove_kernel_failure_witness :
  reverse fim_unregistered !! "/etc/passwd" = Some 131 ∧
  ∃ f', Remove fim_unregistered "/etc/passwd" = (Some (Errno ENOENT), f') ∧
        reverse f' = reverse fim_unregistered ∧
        mapping f' = mapping fim_unregistered.
Proof.
  assert (Hr : reverse fim_unregistered !! "/etc/passwd" = Some 131)
    by (vm_compute; reflexivity).
  assert (Hd : DeleteElement (RulesTable fim_unregistered) 131 =
               (RulesTable fim_unregistered, Some (Errno ENOENT)))
    by (vm_compute; reflexivity).
  split; [exact Hr|].
  destruct (Remove_kernel_failure fim_unregistered "/etc/passwd" 131
              (RulesTable fim_unregistered) (Errno ENOENT) Hr Hd)
    as (f' & HR & Hr' & Hm & _).
  exists f'. auto.
Defined.

(** The claim of C5 fails as stated: after both links of one file are
    added, the first path still has its key while the key resolves to
    the second path. *)
Lemma hard_links_split_views : ¬ consistent (run ops_links fim0).
Proof.
  intros Hc. destruct (Hc "/etc/passwd" 131) as [Hto _].
  vm_compute in Hto. specialize (Hto eq_refl). discriminate Hto.
Qed.

Lemma fs_plain_one_path_per_inode : one_path_per_inode fs_plain.
Proof.
  intros p q sp sq Hp Hq Hino. unfold fs_plain in Hp, Hq.
  repeat match goal with
         | H : context [String.eqb ?a ?b] |- _ =>
             destruct (String.eqb_spec a b)
         end;
    simplify_eq; try done; simpl in Hino; lia.
Qed.

Lemma views_consistent_witness :
  Forall (stat_as fs_plain) ops_plain ∧ consistent (run ops_plain fim0).
Proof.
  assert (Hops : Forall (stat_as fs_plain) ops_plain).
  { repeat constructor. }
  split; [exact Hops|].
  exact (proj1 (views_consistent fs_plain ops_plain (mkHashTable ∅ 64)
                  fs_plain_one_path_per_inode Hops)).
Defined.

(** The views also part when a registered path is added again after
    its file was replaced: the old key keeps resolving to the path. *)
Example replaced_file_splits_views :
  let f := run [OpAdd fs_plain "/etc/passwd"; OpAdd fs_replaced "/etc/passwd"] fim0 in
  reverse f !! "/etc/passwd" = Some 207 ∧
  mapping f !! 131 = Some "/etc/passwd"%string.
Proof. vm_compute. done. Qed.

(** A path that cannot be reached is refused and nothing is touched. *)
Example Add_inaccessible :
  Add fs_plain fim_passwd "/root/.ssh/authorized_keys" =
    (Some (Errno EACCES), fim_passwd).
Proof. vm_compute. reflexivity. Qed.

(** What the table holds after that run. *)
Example run_ops_plain :
  mapping (run ops_plain fim0) = {[ 140 := "/etc/shadow"%string ]} ∧
  reverse (run ops_plain fim0) = {[ "/etc/shadow"%string := 140 ]} ∧
  entries (RulesTable (run ops_plain fim0)) = {[ 140 := 1 ]} ∧
  kcalls (run ops_plain fim0) = [KUpdate 131 1 0; KUpdate 140 1 0; KDelete 131].
Proof. vm_compute. done. Qed.

End WatchFacts.

Module PipelineFacts.
Import Codec Kernel Watch Pipeline Fixtures.

Section Facts.
Context {K : Type} `{!RulesMap K}.
Implicit Types (f : FIM K) (proc : Proc) (e : rawEvent).

(** Without a zero byte the loop never assigns [comLen]. *)
Lemma comLen_loop_no_zero (com : list byte) (index comLen : nat) :
  Forall (λ bit, bit ≠ x00) com → comLen_loop index com comLen = comLen.
Proof.
  intros Hnz. revert index.
  induction Hnz as [|bit rest Hbit _ IH]; intros index; simpl; [done|].
  destruct (Byte.eqb bit x00) eqn:Heq.
  - by apply Byte.byte_dec_bl in Heq.
  - apply IH.
Qed.

(** With a zero byte it stops at the first one. *)
Lemma comLen_loop_first_zero (pre rest : list byte) (index comLen : nat) :
  Forall (λ bit, bit ≠ x00) pre →
  comLen_loop index (pre ++ x00 :: rest) comLen = (index + length pre)%nat.
Proof.
  intros Hnz. revert index.
  induction Hnz as [|bit pre' Hbit _ IH]; intros index; simpl.
  - lia.
  - destruct (Byte.eqb bit x00) eqn:Heq.
    + by apply Byte.byte_dec_bl in Heq.
    + rewrite IH. lia.
Qed.

(** C6: for every successfully decoded raw event whose inode has no
    path in the key-to-path view, the decode loop issues exactly one
    kernel delete, for that key, reports the stale key (one
    error-level log line naming it; the Errors channel is not used),
    and sends no Event for the record. *)
Theorem stale_key_is_purged proc f data e :
  binary_Read data = inl e →
  mapping f !! Inode e = None →
  kcalls (on_data proc f data) = kcalls f ++ [KDelete (Inode e)] ∧
  Logger (on_data proc f data) =
    Logger f ++ [mkLog "could not find key: %v in map" [Inode e]] ∧
  Events (on_data proc f data) = Events f ∧
  Errors (on_data proc f data) = Errors f.
Proof.
  intros Hdec Hmiss. unfold on_data, on_event. rewrite Hdec, Hmiss.
  simpl. destruct (DeleteElement (RulesTable f) (Inode e)) as [t err].
  done.
Qed.

(** C10: for every decoded raw event whose process has no readable
    command line and whose comm field holds no zero byte, the Event
    sent on the output channel has the empty command name: the
    fallback takes the bytes before the first zero byte and its
    length stays zero when there is none. *)
Theorem full_comm_yields_empty_name proc f data e spath :
  binary_Read data = inl e →
  getCMDLine proc e = EmptyString →
  Forall (λ bit, bit ≠ x00) (Com e) →
  mapping f !! Inode e = Some spath →
  Events (on_data proc f data) =
    Events f ++ [mkEvent (Mode e) (PID e) (UID e) (Size e) (Inode e)
                         (Device e) EmptyString spath].
Proof.
  intros Hdec Hcmd Hnz Hpath. unfold on_data, on_event.
  rewrite Hdec, Hpath, Hcmd. simpl.
  by rewrite (comLen_loop_no_zero _ _ _ Hnz).
Qed.

End Facts.

Lemma stale_key_is_purged_witness :
  binary_Read (Encode raw_stale).1 = inl raw_stale ∧
  mapping fim_passwd !! 977 = None ∧
  kcalls (on_data proc_gone fim_passwd (Encode raw_stale).1) =
    [KUpdate 131 1 0; KDelete 977] ∧
  Events (on_data proc_gone fim_passwd (Encode raw_stale).1) = [].
Proof.
  assert (Hdec : binary_Read (Encode raw_stale).1 = inl raw_stale)
    by (vm_compute; reflexivity).
  assert (Hmiss : mapping fim_passwd !! Inode raw_stale = None)
    by (vm_compute; reflexivity).
  split; [exact Hdec|]. split; [exact Hmiss|].
  destruct (stale_key_is_purged proc_gone fim_passwd _ _ Hdec Hmiss)
    as (Hk & _ & He & _).
  split; [exact Hk | exact He].
Defined.

Lemma full_comm_yields_empty_name_witness :
  getCMDLine proc_gone raw_full_comm = EmptyString ∧
  Forall (λ bit, bit ≠ x00) (Com raw_full_comm) ∧
  Events (on_data proc_gone fim_passwd (Encode raw_full_comm).1) =
    [mkEvent 0 4242 0 64 131 2049 EmptyString "/etc/passwd"].
Proof.
  assert (Hdec : binary_Read (Encode raw_full_comm).1 = inl raw_full_comm)
    by (vm_compute; reflexivity).
  assert (Hnz : Forall (λ bit, bit ≠ x00) (Com raw_full_comm))
    by (repeat constructor; discriminate).
  assert (Hpath : mapping fim_passwd !! Inode raw_full_comm = Some "/etc/passwd"%string)
    by (vm_compute; reflexivity).
  split; [reflexivity|]. split; [exact Hnz|].
  exact (full_comm_yields_empty_name proc_gone fim_passwd _ _ _
           Hdec eq_refl Hnz Hpath).
Defined.

(** The fallback when the name is terminated, and the command line
    when /proc has one. *)
Example short_comm_is_trimmed :
  Events (on_data proc_gone fim_passwd
            (Encode (mkRaw 0 1 0 64 131 2049
                       (list_byte_of_string "vi" ++ replicate 14 x00))).1) =
    [mkEvent 0 1 0 64 131 2049 "vi" "/etc/passwd"].
Proof. vm_compute. reflexivity. Qed.

Example cmdline_is_preferred :
  ECom <$> Events (on_data proc_live fim_passwd (Encode raw_full_comm).1) =
    ["vi /etc/passwd"%string].
Proof. vm_compute. reflexivity. Qed.

(** A record that does not decode goes to [Errors] and nowhere else. *)
Example undecodable_is_reported :
  Errors (on_data proc_gone fim_passwd [x01; x02]) =
    [ErrorWrap "failed to decode received data %q: %w" ErrUnexpectedEOF] ∧
  Events (on_data proc_gone fim_passwd [x01; x02]) = [].
Proof. vm_compute. done. Qed.

End PipelineFacts.

Module ConsumerFacts.
Import Codec Consumer Fixtures.

(** Unfolding engine code down to the calls it makes. *)
Ltac engine :=
  unfold exec, Init, Consume, invoke, mbind, Act_bind, mret, Act_ret; simpl.

(** Membership of a call in an explicit trace. *)
Ltac in_trace :=
  repeat (rewrite elem_of_cons || rewrite elem_of_nil);
  try split; intros; intuition (try discriminate; try congruence).

Section Engine.
Context {W : Type} (bc : ParserLoader W).

(** *** [Init]: errors of the first steps *)

Lemma Init_Load_error w e w1 :
  Load bc w = (Some e, w1) →
  exec (Init bc) w = (Some e, (w1, [CallLoad])).
Proof. intros HL. engine. by rewrite HL. Qed.

Lemma Init_Parse_error w w1 state e w2 :
  Load bc w = (None, w1) →
  Parse bc w1 = ((state, Some e), w2) →
  exec (Init bc) w = (Some e, (w2, [CallLoad; CallParse])).
Proof. intros HL HP. engine. by rewrite HL, HP. Qed.

Lemma Init_Save_error w w1 state w2 created w3 changed w4 w5 e w6 :
  Load bc w = (None, w1) →
  Parse bc w1 = ((state, None), w2) →
  Created state w2 = (created, w3) →
  (if negb created then Changed state w3 else (false, w3)) = (changed, w4) →
  (if changed then (Notify state "baseInit" w4).2 else w4) = w5 →
  Save bc w5 = (Some e, w6) →
  (exec (Init bc) w).1 = Some e ∧
  (exec (Init bc) w).2.1 = w6 ∧
  CallTeardown ∉ (exec (Init bc) w).2.2.
Proof.
  intros HL HP HC HCh HN HS. engine. rewrite HL, HP. simpl. rewrite HC. simpl.
  destruct created; simpl in HCh; simpl.
  - injection HCh as <- <-. simpl in HN. subst w5. rewrite HS. simpl.
    repeat split. in_trace.
  - rewrite HCh. simpl. destruct changed; simpl.
    + destruct (Notify state "baseInit" w4) as [[] w5']. simpl in HN. subst w5'.
      rewrite HS. simpl. repeat split. in_trace.
    + subst w5. rewrite HS. simpl. repeat split. in_trace.
Qed.

(** Once [Init] has called [Teardown], it returns nil whatever
    [Teardown] returned. *)
Lemma Init_nil_after_Teardown w :
  CallTeardown ∈ (exec (Init bc) w).2.2 → (exec (Init bc) w).1 = None.
Proof.
  engine.
  destruct (Load bc w) as [[e|] w1]; simpl.
  { in_trace. }
  destruct (Parse bc w1) as [[state [e|]] w2]; simpl.
  { in_trace. }
  destruct (Created state w2) as [created w3]; simpl.
  destruct created; simpl.
  - destruct (Save bc w3) as [[e|] w4]; simpl; [in_trace|].
    destruct (Teardown state w4) as [r w5]; simpl.
    by case_decide.
  - destruct (Changed state w3) as [changed w4]; simpl.
    destruct changed; simpl.
    + destruct (Notify state "baseInit" w4) as [[] w5]; simpl.
      destruct (Save bc w5) as [[e|] w6]; simpl; [in_trace|].
      destruct (Teardown state w6) as [r w7]; simpl.
      by case_decide.
    + destruct (Save bc w4) as [[e|] w5]; simpl; [in_trace|].
      destruct (Teardown state w5) as [r w6]; simpl.
      by case_decide.
Qed.

(** *** [Init]: when [Notify] is called *)

(** Once [Load] and [Parse] have succeeded: no [Notify] for a state
    that reports Created, a [Save] in any case, and a [Notify], by
    "baseInit", exactly for a state not created and changed. *)
Lemma Init_Notify_calls w w1 state w2 created w3 :
  Load bc w = (None, w1) →
  Parse bc w1 = ((state, None), w2) →
  Created state w2 = (created, w3) →
  (created = true →
     (∀ actor, CallNotify actor ∉ (exec (Init bc) w).2.2) ∧
     CallSave ∈ (exec (Init bc) w).2.2) ∧
  (∀ actor, CallNotify actor ∈ (exec (Init bc) w).2.2 ↔
            actor = "baseInit"%string ∧ created = false ∧
            (Changed state w3).1 = true) ∧
  CallSave ∈ (exec (Init bc) w).2.2.
Proof.
  intros HL HP HC. engine. rewrite HL, HP. simpl. rewrite HC. simpl.
  destruct created; simpl.
  - destruct (Save bc w3) as [[e|] w4]; simpl;
      [|destruct (Teardown state w4) as [r w5]; simpl; case_decide; simpl];
      (split; [intros _; split; [intros actor|]|split; [intros actor|]]);
      in_trace.
  - destruct (Changed state w3) as [changed w4]; simpl.
    destruct changed; simpl.
    + destruct (Notify state "baseInit" w4) as [[] w5]; simpl.
      destruct (Save bc w5) as [[e|] w6]; simpl;
        [|destruct (Teardown state w6) as [r w7]; simpl; case_decide; simpl];
        (split; [done|split; [intros actor|]]);
        in_trace.
    + destruct (Save bc w4) as [[e|] w5]; simpl;
        [|destruct (Teardown state w5) as [r w6]; simpl; case_decide; simpl];
        (split; [done|split; [intros actor|]]);
        in_trace.
Qed.

(** *** [Consume] on an unchanged state *)

Lemma Consume_skips_to_Teardown e w state w1 w2 r w3 :
  Parse bc w = ((state, None), w1) →
  Changed state w1 = (false, w2) →
  Teardown state w2 = (r, w3) →
  exec (Consume bc e) w = (r, (w3, [CallParse; CallChanged; CallTeardown])).
Proof.
  intros HP HC HT. engine. rewrite HP. simpl. rewrite HC. simpl.
  by rewrite HT.
Qed.

Lemma Consume_Parse_error e w state err w1 :
  Parse bc w = ((state, Some err), w1) →
  exec (Consume bc e) w = (Some err, (w1, [CallParse])).
Proof. intros HP. engine. by rewrite HP. Qed.

Lemma Consume_changed e w state w1 w2 w3 w4 r w5 :
  Parse bc w = ((state, None), w1) →
  Changed state w1 = (true, w2) →
  Notify state (ECom e) w2 = (tt, w3) →
  Save bc w3 = (None, w4) →
  Teardown state w4 = (r, w5) →
  exec (Consume bc e) w =
    (r, (w5, [CallParse; CallChanged; CallNotify (ECom e); CallSave;
              CallTeardown])).
Proof.
  intros HP HC HN HS HT. engine. rewrite HP. simpl. rewrite HC. simpl.
  rewrite HN, HS. simpl. by rewrite HT.
Qed.

End Engine.

(** *** [UsersState] *)

Section UsersFacts.
Context `{Users.Deps}.
Implicit Types us : Users.UsersState.

Lemma ArrayEqual_same (a : list string) : ArrayEqual a a = true.
Proof. unfold ArrayEqual. by apply bool_decide_eq_true. Qed.

Lemma ArrayEqual_true (a b : list string) : ArrayEqual a b = true ↔ a = b.
Proof. unfold ArrayEqual. apply bool_decide_eq_true. Qed.

(** [Teardown] overwrites [current] with [next] and, comparing the
    receiver with itself afterwards, always returns nil. *)
Lemma Teardown_commits us :
  Users.Teardown us = (None, Users.set_current (Users.next us) us).
Proof.
  unfold Users.Teardown, Users.reload. simpl. by rewrite ArrayEqual_same.
Qed.

(** [reload] by itself does tell the two include lists apart. *)
Lemma reload_signals us :
  (Users.reload us).1 = Some ErrReload ↔
  Users.includes (Users.current us) ≠ Users.includes (Users.next us).
Proof.
  unfold Users.reload.
  destruct (ArrayEqual _ _) eqn:Heq; simpl.
  - apply ArrayEqual_true in Heq. split; [discriminate|congruence].
  - split; [|done]. intros _ Hsame. apply ArrayEqual_true in Hsame. congruence.
Qed.

Lemma Created_empty us :
  (Users.Created us).1 = true ↔ Users.users (Users.current us) = [].
Proof.
  unfold Users.Created. simpl. rewrite Nat.eqb_eq. apply length_zero_iff_nil.
Qed.

End UsersFacts.

(** C7: in [Init], once [Load] and [Parse] have succeeded, [Notify] is
    not called when the state reports Created, even if it is changed,
    while [Save] is still called; [Notify] is called, with actor
    "baseInit", exactly when the state was not just created and is
    changed; and a [UsersState] reports Created exactly when the
    snapshot it loaded holds no users. *)
Theorem Init_notifies_startup_drift :
  (∀ (W : Type) (bc : ParserLoader W) (w w1 : W) (state : State W)
     (w2 : W) (created : bool) (w3 : W),
      Load bc w = (None, w1) →
      Parse bc w1 = ((state, None), w2) →
      Created state w2 = (created, w3) →
      (created = true →
         (∀ actor, CallNotify actor ∉ (exec (Init bc) w).2.2) ∧
         CallSave ∈ (exec (Init bc) w).2.2) ∧
      (∀ actor, CallNotify actor ∈ (exec (Init bc) w).2.2 ↔
                actor = "baseInit"%string ∧ created = false ∧
                (Changed state w3).1 = true) ∧
      CallSave ∈ (exec (Init bc) w).2.2) ∧
  (∀ (D : Users.Deps) (us : @Users.UsersState D),
      (Users.Created us).1 = true ↔ Users.users (Users.current us) = []).
Proof.
  split.
  - intros W bc w w1 state w2 created w3. apply Init_Notify_calls.
  - intros D us. apply Created_empty.
Qed.

(** C9: whenever the state parsed for an event reports not changed,
    [Consume] makes neither a [Notify] nor a [Save] call, calls
    [Teardown] and returns what [Teardown] returned, a reload signal
    included; and the [Teardown] of [UsersState] puts [next] in place
    of [current]. *)
Theorem Consume_unchanged_tears_down :
  (∀ (W : Type) (bc : ParserLoader W) (e : Event) (w : W)
     (state : State W) (w1 w2 : W) (r : option error) (w3 : W),
      Parse bc w = ((state, None), w1) →
      Changed state w1 = (false, w2) →
      Teardown state w2 = (r, w3) →
      exec (Consume bc e) w = (r, (w3, [CallParse; CallChanged; CallTeardown])) ∧
      (r = Some ErrReload → (exec (Consume bc e) w).1 = Some ErrReload)) ∧
  (∀ (D : Users.Deps) (us : @Users.UsersState D),
      Users.current (Users.Teardown us).2 = Users.next us ∧
      Users.next (Users.Teardown us).2 = Users.next us).
Proof.
  split.
  - intros W bc e w state w1 w2 r w3 HP HC HT.
    rewrite (Consume_skips_to_Teardown bc e w state w1 w2 r w3 HP HC HT). done.
  - intros D us. by rewrite Teardown_commits.
Qed.

Lemma Consume_unchanged_tears_down_witness :
  (Users.Changed (Users.Parse (users1 ["alice"%string] [] ["alice"%string] [])).2).1 = false ∧
  (exec (Consume Users.asParserLoader event_passwd)
        (users1 ["alice"%string] [] ["alice"%string] [])).2.2 =
    [CallParse; CallChanged; CallTeardown].
Proof.
  split; [reflexivity|].
  pose proof (proj1 Consume_unchanged_tears_down _ Users.asParserLoader
                event_passwd (users1 ["alice"%string] [] ["alice"%string] [])
                _ _ _ _ _ eq_refl eq_refl eq_refl) as [Hrun _].
  by rewrite Hrun.
Defined.

Lemma Init_notifies_startup_drift_witness :
  (Users.Created (Users.Parse (Users.Load (users0 [] ["alice"%string] [])).2).2).1 = true ∧
  (exec (Init Users.asParserLoader) (users0 [] ["alice"%string] [])).2.2 =
    [CallLoad; CallParse; CallCreated; CallSave; CallTeardown] ∧
  ∀ actor, CallNotify actor ∉
           (exec (Init Users.asParserLoader) (users0 [] ["alice"%string] [])).2.2.
Proof.
  split; [reflexivity|]. split; [reflexivity|].
  destruct (proj1 Init_notifies_startup_drift _ Users.asParserLoader
              (users0 [] ["alice"%string] []) _ _ _ _ _ eq_refl eq_refl eq_refl)
    as (Hcreated & _ & _).
  exact (proj1 (Hcreated eq_refl)).
Defined.

(** The cold start of the spec: nothing stored, alice on disk. [Init]
    saves her and writes no warning. *)
Example Init_cold_start :
  let r := exec (Init Users.asParserLoader) (users0 [] ["alice"%string] []) in
  r.1 = None ∧
  Users.warnings r.2.1 = [] ∧
  Users.db r.2.1 = (["alice"%string], None) ∧
  Users.users (Users.current r.2.1) = ["alice"%string].
Proof. vm_compute. done. Qed.

(** Drift at start-up: alice stored, alice and bob on disk. *)
Example Init_startup_drift :
  let r := exec (Init Users.asParserLoader)
                (users0 ["alice"%string] ["alice"%string; "bob"%string] []) in
  r.2.2 = [CallLoad; CallParse; CallCreated; CallChanged;
           CallNotify "baseInit"; CallSave; CallTeardown] ∧
  Users.warnings r.2.1 =
    [Users.mkUsersModified ["alice"%string; "bob"%string] ["bob"%string] []
                           "baseInit"].
Proof. vm_compute. done. Qed.

(** C1: on a state whose new include list differs from the one that
    was current before the call, [Teardown] commits [next] to [current]
    and returns nil, where the claim has it return ErrReload: [reload]
    runs after the assignment and compares the new list with itself. *)
Theorem Teardown_misses_include_change :
  Users.includes (Users.current users_moved) ≠
    Users.includes (Users.next users_moved) ∧
  (Users.reload users_moved).1 = Some ErrReload ∧
  (Users.Teardown users_moved).1 = None ∧
  Users.current (Users.Teardown users_moved).2 = Users.next users_moved.
Proof.
  split; [discriminate|]. split; [reflexivity|].
  by rewrite Teardown_commits.
Qed.

(** C8: with a state whose [Teardown] fails with an error other than
    the reload signal, [Init] goes through every step and returns nil,
    where the claim has it return that error: the last [return err]
    reads the [err] declared with [state], which is nil by then. *)
Theorem Init_drops_Teardown_error :
  (Teardown (stuckState "commit failed") tt).1 = Some (ErrorString "commit failed") ∧
  exec (Init (stuckConsumer "commit failed")) tt =
    (None, (tt, [CallLoad; CallParse; CallCreated; CallChanged; CallSave;
                 CallTeardown])).
Proof. split; reflexivity. Qed.

(** The same consumer under [Consume] does get its error back. *)
Example Consume_returns_Teardown_error :
  (exec (Consume (stuckConsumer "commit failed") event_passwd) tt).1 =
    Some (ErrorString "commit failed").
Proof. reflexivity. Qed.

End ConsumerFacts.

Module CodecMore.
Import Codec Fixtures CodecFacts.

Lemma Z_of_byte_range (b : byte) : 0 <= Z_of_byte b < 256.
Proof.
  unfold Z_of_byte. pose proof (Byte.to_N_bounded b). lia.
Qed.

Lemma byte_of_Z_of_byte (b : byte) : byte_of_Z (Z_of_byte b) = b.
Proof.
  unfold byte_of_Z. pose proof (Z_of_byte_range b) as Hr.
  change 255 with (Z.ones 8). rewrite Z.land_ones, Z.mod_small by lia.
  unfold Z_of_byte. by rewrite N2Z.id, Byte.of_to_N.
Qed.

(** The low byte of [b | rest<<8] is [b], and the rest is [rest]. *)
Lemma byte_of_Z_low (b : byte) (rest : Z) :
  byte_of_Z (Z.lor (Z_of_byte b) (Z.shiftl rest 8)) = b.
Proof.
  rewrite <- (byte_of_Z_of_byte b) at 2. unfold byte_of_Z. do 3 f_equal.
  pose proof (Z_of_byte_range b) as Hr.
  change 255 with (Z.ones 8).
  rewrite Z.land_lor_distr_l, !Z.land_ones by lia.
  rewrite Z.shiftl_mul_pow2, Z.mod_mul by lia.
  by rewrite Z.lor_0_r.
Qed.

Lemma shiftr_low (b : byte) (rest : Z) :
  Z.shiftr (Z.lor (Z_of_byte b) (Z.shiftl rest 8)) 8 = rest.
Proof.
  pose proof (Z_of_byte_range b) as Hr.
  rewrite Z.shiftr_lor, Z.shiftr_shiftl_l by lia.
  rewrite Z.shiftr_div_pow2, Z.div_small by lia.
  by rewrite Z.sub_diag, Z.shiftl_0_r.
Qed.

(** Writing back what [Uint] read gives the bytes it read. *)
Lemma PutUint_Uint (bs : list byte) : PutUint (length bs) (Uint bs) = bs.
Proof.
  induction bs as [|b bs IH]; [done|].
  cbn [length PutUint Uint]. by rewrite byte_of_Z_low, shiftr_low, IH.
Qed.

Lemma Uint_range (bs : list byte) :
  0 <= Uint bs < 2 ^ (8 * Z.of_nat (length bs)).
Proof.
  rewrite <- (PutUint_Uint bs) at 1 2.
  rewrite Uint_PutUint, Z.land_ones by lia.
  apply Z.mod_pos_bound. apply Z.pow_pos_nonneg; lia.
Qed.

Lemma uint32_roundtrip (u : Z) :
  0 <= u < 2 ^ 32 -> uint32_of_int32 (int32_of_uint32 u) = u.
Proof.
  intros Hu. unfold uint32_of_int32, int32_of_uint32.
  rewrite Z.land_ones by lia.
  destruct (Z.testbit u 31).
  - rewrite <- (Z.mod_add _ 1) by lia.
    replace (u - 2 ^ 32 + 1 * 2 ^ 32) with u by lia.
    apply Z.mod_small; lia.
  - apply Z.mod_small; lia.
Qed.

Lemma int32_of_uint32_range (u : Z) :
  0 <= u < 2 ^ 32 -> - 2 ^ 31 <= int32_of_uint32 u < 2 ^ 31.
Proof.
  intros Hu. unfold int32_of_uint32.
  pose proof (Z.div_mod u (2 ^ 31) ltac:(lia)) as Hdm.
  pose proof (Z.mod_pos_bound u (2 ^ 31) ltac:(lia)) as Hm.
  assert (Hq : 0 <= u / 2 ^ 31 < 2).
  { split; [apply Z.div_pos; lia|]. apply Z.div_lt_upper_bound; lia. }
  destruct (Z.testbit u 31) eqn:Hb.
  - apply Z.testbit_true in Hb; [|lia]. rewrite Z.mod_small in Hb by lia. lia.
  - apply Z.testbit_false in Hb; [|lia]. rewrite Z.mod_small in Hb by lia. lia.
Qed.

(** What [binary_Read] returns on a buffer that is long enough. *)
Lemma binary_Read_long (data : list byte) :
  (rawEventSize <= length data)%nat ->
  binary_Read data =
    inl (mkRaw (int32_of_uint32 (Uint (take 4 data)))
               (Uint (take 4 (drop 4 data)))
               (Uint (take 4 (drop 8 data)))
               (Uint (take 4 (drop 12 data)))
               (Uint (take 8 (drop 16 data)))
               (Uint (take 8 (drop 24 data)))
               (take taskComLen (drop 32 data))).
Proof.
  intros Hlen. unfold binary_Read, rawEventSize in *.
  destruct (decide (length data = 0%nat)) as [Hz|_]; [lia|].
  destruct (decide (length data < 48)%nat) as [Hlt|_]; [lia|].
  by rewrite !drop_drop.
Qed.

Lemma binary_Read_short_error (data : list byte) :
  (length data < rawEventSize)%nat ->
  binary_Read data =
    inr (if decide (length data = 0%nat) then EOF else ErrUnexpectedEOF).
Proof.
  intros Hlen. unfold binary_Read.
  destruct (decide (length data = 0%nat)); [done|].
  by destruct (decide (length data < rawEventSize)%nat).
Qed.

(** X1: every buffer of at least 48 bytes decodes, and every field of
    the decoded record is within the range of its Go type (the comm
    field has its sixteen bytes). *)
Theorem binary_Read_in_range (data : list byte) :
  (rawEventSize <= length data)%nat ->
  ∃ e, binary_Read data = inl e ∧ in_range e.
Proof.
  intros Hlen. eexists. split; [by apply binary_Read_long|].
  unfold rawEventSize in Hlen.
  assert (Hw : ∀ w off : nat, (off + w <= 48)%nat →
               0 <= Uint (take w (drop off data)) < 2 ^ (8 * Z.of_nat w)).
  { intros w off Hoff.
    pose proof (Uint_range (take w (drop off data))) as Hr.
    rewrite length_take, length_drop in Hr.
    by replace (w `min` (length data - off))%nat with w in Hr by lia. }
  unfold in_range. cbn [Mode PID UID Size Inode Device Com].
  pose proof (Hw 4%nat 0%nat ltac:(lia)) as H0. rewrite drop_0 in H0.
  pose proof (Hw 4%nat 4%nat ltac:(lia)) as H1.
  pose proof (Hw 4%nat 8%nat ltac:(lia)) as H2.
  pose proof (Hw 4%nat 12%nat ltac:(lia)) as H3.
  pose proof (Hw 8%nat 16%nat ltac:(lia)) as H4.
  pose proof (Hw 8%nat 24%nat ltac:(lia)) as H5.
  change (8 * Z.of_nat 4) with 32 in *. change (8 * Z.of_nat 8) with 64 in *.
  repeat split; try lia; try (by apply int32_of_uint32_range).
  rewrite length_take, length_drop. unfold taskComLen. lia.
Qed.

Lemma binary_Read_in_range_witness :
  (rawEventSize <= length (replicate 50 xff))%nat ∧
  ∃ e, binary_Read (replicate 50 xff) = inl e ∧ in_range e.
Proof.
  assert (Hlen : (rawEventSize <= length (replicate 50 xff))%nat)
    by (vm_compute; lia).
  split; [exact Hlen|]. exact (binary_Read_in_range _ Hlen).
Defined.

(** X2: encoding a decoded record gives back the first 48 bytes of the
    buffer it was decoded from; what follows them in the buffer plays
    no part. *)
Theorem Decode_Encode_roundtrip (data : list byte) (e : rawEvent) :
  binary_Read data = inl e ->
  (Encode e).1 = take rawEventSize data ∧
  ∀ extra, binary_Read (take rawEventSize data ++ extra) = inl e.
Proof.
  intros Hdec.
  assert (Hlen : (rawEventSize <= length data)%nat).
  { destruct (decide (rawEventSize <= length data)%nat) as [|Hshort]; [done|].
    rewrite binary_Read_short_error in Hdec by lia. discriminate. }
  assert (Henc : (Encode e).1 = take rawEventSize data).
  { rewrite binary_Read_long in Hdec by done. injection Hdec as <-.
    unfold rawEventSize in *.
    assert (Hw : ∀ w off : nat, (off + w <= 48)%nat →
                 PutUint w (Uint (take w (drop off data))) = take w (drop off data)).
    { intros w off Hoff.
      rewrite <- (PutUint_Uint (take w (drop off data))) at 2.
      f_equal. rewrite length_take, length_drop. lia. }
    unfold Encode, binary_Write. cbn [fst Mode PID UID Size Inode Device Com].
    rewrite uint32_roundtrip.
    2:{ pose proof (Uint_range (take 4 data)) as Hr.
        rewrite length_take in Hr.
        replace (4 `min` length data)%nat with 4%nat in Hr by lia. exact Hr. }
    rewrite <- (drop_0 data) at 1.
    rewrite !Hw by lia. unfold taskComLen.
    rewrite drop_0, !app_assoc.
    repeat (rewrite take_take_drop; simpl Nat.add).
    reflexivity. }
  split; [exact Henc|]. intros extra.
  assert (Hl48 : length (take rawEventSize data) = rawEventSize)
    by (rewrite length_take; lia).
  rewrite binary_Read_long in Hdec by done. injection Hdec as <-.
  rewrite binary_Read_long by (rewrite length_app; lia).
  unfold rawEventSize in *.
  assert (Hpre : ∀ w off : nat, (off + w <= 48)%nat →
            take w (drop off (take 48 data ++ extra)) = take w (drop off data)).
  { intros w off Hoff. rewrite drop_app_le by lia.
    rewrite take_app_le by (rewrite length_drop; lia).
    rewrite !take_drop_commute, take_take. do 2 f_equal. lia. }
  pose proof (Hpre 4%nat 0%nat ltac:(lia)) as H0. rewrite !drop_0 in H0.
  unfold taskComLen.
  by rewrite H0, !Hpre by lia.
Qed.

Lemma Decode_Encode_roundtrip_witness :
  binary_Read (replicate 50 xff) = inl (mkRaw (-1) (2 ^ 32 - 1) (2 ^ 32 - 1)
    (2 ^ 32 - 1) (2 ^ 64 - 1) (2 ^ 64 - 1) (replicate 16 xff)) ∧
  (Encode (mkRaw (-1) (2 ^ 32 - 1) (2 ^ 32 - 1) (2 ^ 32 - 1) (2 ^ 64 - 1)
                 (2 ^ 64 - 1) (replicate 16 xff))).1 = replicate 48 xff.
Proof.
  assert (Hdec : binary_Read (replicate 50 xff) =
    inl (mkRaw (-1) (2 ^ 32 - 1) (2 ^ 32 - 1) (2 ^ 32 - 1) (2 ^ 64 - 1)
               (2 ^ 64 - 1) (replicate 16 xff)))
    by (vm_compute; reflexivity).
  split; [exact Hdec|].
  exact (proj1 (Decode_Encode_roundtrip _ _ Hdec)).
Defined.

End CodecMore.

Module WatchMore.
Import Codec Kernel Watch Pipeline Loops Fixtures WatchFacts.

Section Facts.
Context {K : Type} `{!RulesMap K}.
Implicit Types (f : FIM K) (fs : FS) (name : string) (key : Z).

(** A successful [Remove], spelled out. *)
Lemma Remove_nil_inv f name f' :
  Remove f name = (None, f') →
  ∃ key t, reverse f !! name = Some key ∧
           DeleteElement (RulesTable f) key = (t, None) ∧
           f' = mkFIM (delete key (mapping f)) (delete name (reverse f))
                      t (Events f) (Errors f) (Logger f)
                      (kcalls f ++ [KDelete key]).
Proof.
  intros HR.
  destruct (reverse f !! name) as [key|] eqn:Hr.
  2:{ rewrite (Remove_unknown _ _ Hr) in HR. discriminate. }
  destruct (DeleteElement (RulesTable f) key) as [t [e|]] eqn:Hd.
  { rewrite (Remove_kernel_error _ _ _ _ _ Hr Hd) in HR. discriminate. }
  rewrite (Remove_success _ _ _ _ Hr Hd) in HR. injection HR as <-.
  by exists key, t.
Qed.

(** A successful [Add], spelled out. *)
Lemma Add_nil_inv fs f name f' :
  Add fs f name = (None, f') →
  ∃ st t, fs name = inl st ∧
          UpdateElement (RulesTable f) (Ino st) 1 bpfAny = (t, None) ∧
          f' = mkFIM (<[Ino st := name]> (mapping f))
                     (<[name := Ino st]> (reverse f))
                     t (Events f) (Errors f) (Logger f)
                     (kcalls f ++ [KUpdate (Ino st) 1 bpfAny]).
Proof.
  intros HA.
  destruct (fs name) as [st|e] eqn:Hst.
  2:{ rewrite (Add_lookup_error _ _ _ _ Hst) in HA. discriminate. }
  destruct (UpdateElement (RulesTable f) (Ino st) 1 bpfAny) as [t [e|]] eqn:Hup.
  { rewrite (Add_kernel_error _ _ _ _ _ _ Hst Hup) in HA. discriminate. }
  rewrite (Add_success _ _ _ _ _ Hst Hup) in HA. injection HA as <-.
  by exists st, t.
Qed.

(** X3: once [Remove] has succeeded for a path, removing the same path
    again fails with "error getting key", without a call to the kernel
    and without any change to the monitor. *)
Theorem Remove_twice f name f' :
  Remove f name = (None, f') →
  Remove f' name = (Some (ErrorString "error getting key"), f').
Proof.
  intros HR. destruct (Remove_nil_inv _ _ _ HR) as (key & t & _ & _ & ->).
  apply Remove_unknown. simpl. apply lookup_delete_eq.
Qed.

(** X4: adding a path that is not registered, under a key that is not
    registered, and removing it again puts both views back as they
    were; the kernel has seen one update and one delete of that key. *)
Theorem Add_Remove_restores fs f name st f1 f2 :
  fs name = inl st →
  reverse f !! name = None →
  mapping f !! Ino st = None →
  Add fs f name = (None, f1) →
  Remove f1 name = (None, f2) →
  mapping f2 = mapping f ∧ reverse f2 = reverse f ∧
  kcalls f2 = kcalls f ++ [KUpdate (Ino st) 1 bpfAny; KDelete (Ino st)].
Proof.
  intros Hst Hr Hm HA HR.
  destruct (Add_nil_inv _ _ _ _ HA) as (st' & t & Hst' & _ & ->).
  rewrite Hst in Hst'. injection Hst' as <-.
  destruct (Remove_nil_inv _ _ _ HR) as (key & t' & Hkey & _ & ->).
  simpl in Hkey. rewrite lookup_insert_eq in Hkey. injection Hkey as <-.
  simpl. rewrite !delete_insert_id by done. by rewrite <- app_assoc.
Qed.

(** X5: adding a registered path again, while the file keeps its inode,
    changes neither view: the second [Add] only repeats the update of
    the kernel entry. *)
Theorem Add_again fs f name f1 f2 :
  Add fs f name = (None, f1) →
  Add fs f1 name = (None, f2) →
  mapping f2 = mapping f1 ∧ reverse f2 = reverse f1 ∧
  ∃ key, kcalls f2 = kcalls f ++ [KUpdate key 1 bpfAny; KUpdate key 1 bpfAny].
Proof.
  intros HA1 HA2.
  destruct (Add_nil_inv _ _ _ _ HA1) as (st & t & Hst & _ & ->).
  destruct (Add_nil_inv _ _ _ _ HA2) as (st' & t' & Hst' & _ & ->).
  rewrite Hst in Hst'. injection Hst' as <-. simpl.
  rewrite !insert_insert_eq. repeat split.
  exists (Ino st). by rewrite <- app_assoc.
Qed.

(** X6: a call of [Add] or [Remove] that returns an error has changed
    neither view, sent nothing and logged nothing; at most it has made
    one call to the kernel. *)
Theorem failed_call_changes_nothing f (o : op) err f' :
  step f o = (Some err, f') →
  mapping f' = mapping f ∧ reverse f' = reverse f ∧
  Events f' = Events f ∧ Errors f' = Errors f ∧ Logger f' = Logger f ∧
  (kcalls f' = kcalls f ∨ ∃ c, kcalls f' = kcalls f ++ [c]).
Proof.
  destruct o as [fs name|name]; simpl.
  - destruct (fs name) as [st|e] eqn:Hst.
    + destruct (UpdateElement (RulesTable f) (Ino st) 1 bpfAny) as [t [e|]] eqn:Hup.
      * rewrite (Add_kernel_error _ _ _ _ _ _ Hst Hup). intros [= _ <-].
        simpl. repeat split. right. by eexists.
      * rewrite (Add_success _ _ _ _ _ Hst Hup). discriminate.
    + rewrite (Add_lookup_error _ _ _ _ Hst). intros [= _ <-]. repeat split. by left.
  - destruct (reverse f !! name) as [key|] eqn:Hr.
    + destruct (DeleteElement (RulesTable f) key) as [t [e|]] eqn:Hd.
      * rewrite (Remove_kernel_error _ _ _ _ _ Hr Hd). intros [= _ <-].
        simpl. repeat split. right. by eexists.
      * rewrite (Remove_success _ _ _ _ Hr Hd). discriminate.
    + rewrite (Remove_unknown _ _ Hr). intros [= _ <-]. repeat split. by left.
Qed.

End Facts.

Lemma Remove_twice_witness :
  (Remove fim_passwd "/etc/passwd").1 = None ∧
  (Remove (Remove fim_passwd "/etc/passwd").2 "/etc/passwd").1 =
    Some (ErrorString "error getting key").
Proof.
  assert (H1 : Remove fim_passwd "/etc/passwd" =
               (None, (Remove fim_passwd "/etc/passwd").2))
    by (vm_compute; reflexivity).
  split; [by rewrite H1|].
  by rewrite (Remove_twice fim_passwd "/etc/passwd" _ H1).
Defined.

Lemma Add_Remove_restores_witness :
  reverse fim_passwd !! "/etc/shadow" = None ∧
  mapping fim_passwd !! 140 = None ∧
  mapping (Remove (Add fs_plain fim_passwd "/etc/shadow").2 "/etc/shadow").2 =
    mapping fim_passwd.
Proof.
  assert (Hr : reverse fim_passwd !! "/etc/shadow" = None)
    by (vm_compute; reflexivity).
  assert (Hm : mapping fim_passwd !! Ino (mkStat 2049 140) = None)
    by (vm_compute; reflexivity).
  assert (HA : Add fs_plain fim_passwd "/etc/shadow" =
               (None, (Add fs_plain fim_passwd "/etc/shadow").2))
    by (vm_compute; reflexivity).
  assert (HR : Remove (Add fs_plain fim_passwd "/etc/shadow").2 "/etc/shadow" =
               (None, (Remove (Add fs_plain fim_passwd "/etc/shadow").2
                              "/etc/shadow").2))
    by (vm_compute; reflexivity).
  split; [exact Hr|]. split; [exact Hm|].
  exact (proj1 (Add_Remove_restores fs_plain fim_passwd "/etc/shadow"
                  (mkStat 2049 140) _ _ eq_refl Hr Hm HA HR)).
Defined.

Lemma Add_again_witness :
  (Add fs_plain fim0 "/etc/passwd").1 = None ∧
  mapping (Add fs_plain fim_passwd "/etc/passwd").2 = mapping fim_passwd.
Proof.
  assert (H1 : Add fs_plain fim0 "/etc/passwd" = (None, fim_passwd))
    by (vm_compute; reflexivity).
  assert (H2 : Add fs_plain fim_passwd "/etc/passwd" =
               (None, (Add fs_plain fim_passwd "/etc/passwd").2))
    by (vm_compute; reflexivity).
  split; [by rewrite H1|].
  exact (proj1 (Add_again fs_plain fim0 "/etc/passwd" _ _ H1 H2)).
Defined.

Lemma failed_call_changes_nothing_witness :
  (step fim_passwd (OpRemove "/etc/shadow")).1 =
    Some (ErrorString "error getting key") ∧
  mapping (step fim_passwd (OpRemove "/etc/shadow")).2 = mapping fim_passwd.
Proof.
  assert (H1 : step fim_passwd (OpRemove "/etc/shadow") =
               (Some (ErrorString "error getting key"),
                (step fim_passwd (OpRemove "/etc/shadow")).2))
    by (vm_compute; reflexivity).
  split; [by rewrite H1|].
  exact (proj1 (failed_call_changes_nothing fim_passwd _ _ _ H1)).
Defined.

End WatchMore.

Module LoopsFacts.
Import Codec Kernel Watch Pipeline Loops Fixtures WatchFacts WatchMore CodecMore.

Section Facts.
Context {K : Type} `{!RulesMap K}.
Implicit Types (f : FIM K) (fs : FS) (name : string) (key : Z).

(** *** [Stats] *)

Lemma Add_keeps_size fs0 fs f name :
  one_path_per_inode fs0 → fs name = fs0 name →
  consistent f → keyed_by fs0 f →
  size (mapping f) = size (reverse f) →
  size (mapping (Add fs f name).2) = size (reverse (Add fs f name).2).
Proof.
  intros Hinj Hfs Hc Hk Hsz.
  destruct (Add fs f name) as [[e|] f'] eqn:HA.
  { apply Add_error_keeps_maps in HA as [Hm Hr]. simpl. by rewrite Hm, Hr. }
  destruct (Add_nil_inv _ _ _ _ HA) as (st & t & Hst & _ & ->). simpl.
  rewrite !map_size_insert, Hsz.
  destruct (reverse f !! name) as [k|] eqn:Hr.
  - destruct (Hk _ _ Hr) as (st' & Hst' & Hi).
    rewrite <- Hfs, Hst in Hst'. injection Hst' as <-. subst k.
    apply Hc in Hr. by rewrite Hr.
  - destruct (mapping f !! Ino st) as [n|] eqn:Hm; [|done].
    apply Hc in Hm. destruct (Hk _ _ Hm) as (st' & Hst' & Hi).
    rewrite Hfs in Hst. rewrite (Hinj _ _ _ _ Hst' Hst Hi) in Hm. congruence.
Qed.

Lemma Remove_keeps_size f name :
  consistent f →
  size (mapping f) = size (reverse f) →
  size (mapping (Remove f name).2) = size (reverse (Remove f name).2).
Proof.
  intros Hc Hsz.
  destruct (Remove f name) as [[e|] f'] eqn:HR.
  { apply Remove_error_keeps_maps in HR as [Hm Hr]. simpl. by rewrite Hm, Hr. }
  destruct (Remove_nil_inv _ _ _ HR) as (key & t & Hr & _ & ->). simpl.
  rewrite !map_size_delete, Hsz, Hr. apply Hc in Hr. by rewrite Hr.
Qed.

Lemma run_keeps_size fs0 ops f :
  one_path_per_inode fs0 → Forall (stat_as fs0) ops →
  consistent f → keyed_by fs0 f →
  size (mapping f) = size (reverse f) →
  size (mapping (run ops f)) = size (reverse (run ops f)).
Proof.
  intros Hinj Hops. revert f.
  induction Hops as [|o ops Ho _ IH]; intros f Hc Hk Hsz; [done|].
  change (run (o :: ops) f) with (run ops (step f o).2).
  destruct o as [fs name|name]; simpl in Ho |- *.
  - destruct (Add_keeps_views fs0 fs f name) as [Hc' Hk']; auto.
    apply IH; [done|done|]. by apply (Add_keeps_size fs0).
  - destruct (Remove_keeps_views fs0 f name) as [Hc' Hk']; auto.
    apply IH; [done|done|]. by apply Remove_keeps_size.
Qed.

(** X7: after any sequence of [Add] and [Remove] calls on a fresh
    monitor, made while each path keeps one inode number and no two
    paths share one, the number that [Stats] prints is the number of
    paths that are registered. *)
Theorem Stats_counts_paths fs0 ops (t : K) :
  one_path_per_inode fs0 → Forall (stat_as fs0) ops →
  Stats (run ops (InitFIM t)) =
    "Currently watching " +:+ pretty (size (reverse (run ops (InitFIM t))))
                        +:+ " files".
Proof.
  intros Hinj Hops. unfold Stats.
  rewrite (run_keeps_size fs0); auto using InitFIM_consistent, InitFIM_keyed_by.
Qed.

(** *** The kernel table and the key-to-path view *)

Lemma step_Errors f (o : op) : Errors (step f o).2 = Errors f.
Proof.
  destruct o as [fs name|name]; simpl.
  - destruct (fs name) as [st|e] eqn:Hst.
    + destruct (UpdateElement (RulesTable f) (Ino st) 1 bpfAny) as [t [e|]] eqn:Hup.
      * by rewrite (Add_kernel_error _ _ _ _ _ _ Hst Hup).
      * by rewrite (Add_success _ _ _ _ _ Hst Hup).
    + by rewrite (Add_lookup_error _ _ _ _ Hst).
  - destruct (reverse f !! name) as [key|] eqn:Hr.
    + destruct (DeleteElement (RulesTable f) key) as [t [e|]] eqn:Hd.
      * by rewrite (Remove_kernel_error _ _ _ _ _ Hr Hd).
      * by rewrite (Remove_success _ _ _ _ Hr Hd).
    + by rewrite (Remove_unknown _ _ Hr).
Qed.

Lemma error_send_views (err : error) f :
  mapping (error_send err f) = mapping f ∧
  reverse (error_send err f) = reverse f ∧
  RulesTable (error_send err f) = RulesTable f ∧
  Events (error_send err f) = Events f ∧
  Logger (error_send err f) = Logger f ∧
  kcalls (error_send err f) = kcalls f.
Proof. unfold error_send. by case_decide. Qed.

Lemma error_send_bounded (err : error) f :
  (length (Errors f) ≤ chanSize)%nat →
  (length (Errors (error_send err f)) ≤ chanSize)%nat.
Proof.
  intros Hb. unfold error_send. case_decide; [|done].
  simpl. rewrite length_app. simpl. lia.
Qed.

Lemma on_event_Errors proc f (e : rawEvent) :
  Errors (on_event proc f e) = Errors f.
Proof.
  unfold on_event. destruct (mapping f !! Inode e); [done|].
  simpl. by destruct (DeleteElement (RulesTable f) (Inode e)).
Qed.

Lemma act_bounded f (a : action) :
  (length (Errors f) ≤ chanSize)%nat →
  (length (Errors (act f a)) ≤ chanSize)%nat.
Proof.
  intros Hb. destruct a as [o|[proc data|missedCount]]; simpl.
  - by rewrite step_Errors.
  - unfold on_data. destruct (binary_Read data) as [e|err].
    + by rewrite on_event_Errors.
    + by apply error_send_bounded.
  - by apply error_send_bounded.
Qed.

Lemma error_send_prefix (err : error) f :
  Errors f `prefix_of` Errors (error_send err f).
Proof.
  unfold error_send. case_decide; [|done]. simpl. by apply prefix_app_r.
Qed.

Lemma act_prefix f (a : action) : Errors f `prefix_of` Errors (act f a).
Proof.
  destruct a as [o|[proc data|missedCount]]; simpl.
  - by rewrite step_Errors.
  - unfold on_data. destruct (binary_Read data) as [e|err].
    + by rewrite on_event_Errors.
    + apply error_send_prefix.
  - apply error_send_prefix.
Qed.

(** X8: whatever the monitor is asked to do and whatever the two loops
    receive, no more than [chanSize] errors are ever pending on the
    Errors channel, and the errors that are pending stay pending in
    their order: a report that finds the buffer full is the one that is
    dropped. *)
Theorem Errors_never_overflow (actions : list action) (t : K) :
  (length (Errors (run_actions actions (InitFIM t))) ≤ chanSize)%nat ∧
  ∀ f, Errors f `prefix_of` Errors (run_actions actions f).
Proof.
  unfold run_actions. split.
  - assert (Hb : (length (Errors (InitFIM t)) ≤ chanSize)%nat)
      by (unfold chanSize; simpl; lia).
    revert Hb. generalize (InitFIM t).
    induction actions as [|a actions IH]; intros f Hb; [done|].
    simpl. apply IH. by apply act_bounded.
  - induction actions as [|a actions IH]; intros f; [done|].
    simpl. etrans; [apply act_prefix|apply IH].
Qed.

(** What one input does to the monitor. *)
Lemma on_input_effect f (i : input) :
  mapping (on_input f i) = mapping f ∧
  reverse (on_input f i) = reverse f ∧
  (∃ evs, Events (on_input f i) = Events f ++ evs ∧
          (length evs ≤ 1)%nat ∧
          ∀ ev, ev ∈ evs → mapping f !! EInode ev = Some (EPath ev)) ∧
  (∃ calls, kcalls (on_input f i) = kcalls f ++ calls ∧
            ∀ c, c ∈ calls → ∃ key, c = KDelete key ∧ mapping f !! key = None).
Proof.
  assert (Hnone : ∀ f' : FIM K,
            mapping f' = mapping f → reverse f' = reverse f →
            Events f' = Events f → kcalls f' = kcalls f →
            mapping f' = mapping f ∧ reverse f' = reverse f ∧
            (∃ evs, Events f' = Events f ++ evs ∧ (length evs ≤ 1)%nat ∧
                    ∀ ev, ev ∈ evs → mapping f !! EInode ev = Some (EPath ev)) ∧
            (∃ calls, kcalls f' = kcalls f ++ calls ∧
                      ∀ c, c ∈ calls →
                           ∃ key, c = KDelete key ∧ mapping f !! key = None)).
  { intros f' Hm Hr He Hkc. split; [done|]. split; [done|]. split.
    - exists []. rewrite app_nil_r. repeat split; [done|simpl; lia|].
      intros ev Hin. by apply elem_of_nil in Hin.
    - exists []. rewrite app_nil_r. split; [done|].
      intros c Hin. by apply elem_of_nil in Hin. }
  destruct i as [proc data|missedCount]; simpl.
  2:{ unfold on_missed.
      destruct (error_send_views (ErrorString ("log message count: " +:+ pretty missedCount)) f)
        as (? & ? & ? & ? & ? & ?). by apply Hnone. }
  unfold on_data. destruct (binary_Read data) as [e|err].
  2:{ destruct (error_send_views
                  (ErrorWrap "failed to decode received data %q: %w" err) f)
        as (? & ? & ? & ? & ? & ?). by apply Hnone. }
  unfold on_event. destruct (mapping f !! Inode e) as [spath|] eqn:Hm.
  - split; [done|]. split; [done|]. split.
    + eexists. split; [reflexivity|]. split; [simpl; lia|].
      intros ev Hin. apply list_elem_of_singleton in Hin as ->. done.
    + exists []. rewrite app_nil_r. split; [done|].
      intros c Hin. by apply elem_of_nil in Hin.
  - simpl. destruct (DeleteElement (RulesTable f) (Inode e)) as [t err].
    split; [done|]. split; [done|]. split.
    + exists []. rewrite app_nil_r. split; [done|]. split; [simpl; lia|].
      intros ev Hin. by apply elem_of_nil in Hin.
    + eexists. split; [reflexivity|].
      intros c Hin. apply list_elem_of_singleton in Hin as ->. by exists (Inode e).
Qed.

Lemma poll_effect (inputs : list input) f :
  mapping (poll inputs f) = mapping f ∧
  reverse (poll inputs f) = reverse f ∧
  (∃ evs, Events (poll inputs f) = Events f ++ evs ∧
          (length evs ≤ length inputs)%nat ∧
          ∀ ev, ev ∈ evs → mapping f !! EInode ev = Some (EPath ev)) ∧
  (∃ calls, kcalls (poll inputs f) = kcalls f ++ calls ∧
            ∀ c, c ∈ calls → ∃ key, c = KDelete key ∧ mapping f !! key = None).
Proof.
  revert f. induction inputs as [|i inputs IH]; intros f.
  { simpl. split; [done|]. split; [done|].
    split; exists []; rewrite app_nil_r; repeat split;
      try done; intros ? Hin; by apply elem_of_nil in Hin. }
  change (poll (i :: inputs) f) with (poll inputs (on_input f i)).
  destruct (on_input_effect f i)
    as (Hm & Hr & (evs1 & He1 & Hl1 & Hp1) & (cs1 & Hc1 & Hd1)).
  destruct (IH (on_input f i))
    as (Hm' & Hr' & (evs2 & He2 & Hl2 & Hp2) & (cs2 & Hc2 & Hd2)).
  rewrite Hm in Hm', Hp2, Hd2. rewrite Hr in Hr'.
  split; [done|]. split; [done|]. split.
  - exists (evs1 ++ evs2). rewrite He2, He1, <- app_assoc.
    split; [done|]. split; [rewrite length_app; simpl; lia|].
    intros ev Hin. apply elem_of_app in Hin as [Hin|Hin]; auto.
  - exists (cs1 ++ cs2). rewrite Hc2, Hc1, <- app_assoc.
    split; [done|].
    intros c Hin. apply elem_of_app in Hin as [Hin|Hin]; auto.
Qed.

(** X9: whatever the two loops receive, they leave both views of the
    watch table as they are, and the only calls they make to the kernel
    are deletes of keys that have no path in the key-to-path view: they
    never register a key and never unregister a watched file. *)
Theorem loops_only_purge (inputs : list input) f :
  mapping (poll inputs f) = mapping f ∧
  reverse (poll inputs f) = reverse f ∧
  ∃ calls, kcalls (poll inputs f) = kcalls f ++ calls ∧
           ∀ c, c ∈ calls → ∃ key, c = KDelete key ∧ mapping f !! key = None.
Proof. by destruct (poll_effect inputs f) as (? & ? & _ & ?). Qed.

(** X10: every Event that the loops send carries, as its path, the path
    that the key-to-path view holds for the Event's inode, and the loops
    send at most one Event per input received. *)
Theorem sent_events_resolve (inputs : list input) f :
  ∃ evs, Events (poll inputs f) = Events f ++ evs ∧
         (length evs ≤ length inputs)%nat ∧
         ∀ ev, ev ∈ evs → Resolve f (EInode ev) = Some (EPath ev).
Proof. by destruct (poll_effect inputs f) as (_ & _ & ? & _). Qed.

(** X24: once [Add] has succeeded for a path, a record that decodes to
    the path's inode number is sent on as one Event carrying that path
    and the record's numbers, and no call is made to the kernel. *)
Theorem added_path_is_delivered fs proc f name f1 st (data : list byte)
    (e : rawEvent) :
  fs name = inl st →
  Add fs f name = (None, f1) →
  binary_Read data = inl e →
  Inode e = Ino st →
  kcalls (on_data proc f1 data) = kcalls f1 ∧
  ∃ com, Events (on_data proc f1 data) =
         Events f1 ++ [mkEvent (Mode e) (PID e) (UID e) (Size e) (Inode e)
                               (Device e) com name].
Proof.
  intros Hst HA Hdec Hino.
  destruct (Add_nil_inv _ _ _ _ HA) as (st' & t & Hst' & _ & ->).
  rewrite Hst in Hst'. injection Hst' as <-.
  unfold on_data, on_event. rewrite Hdec. simpl.
  rewrite Hino, lookup_insert_eq. simpl. split; [done|]. by eexists.
Qed.

(** X25: once [Remove] has succeeded for a path, a record that decodes
    to the key the path was registered under is not sent on: the loop
    asks the kernel to delete that key and sends no Event. *)
Theorem removed_path_is_purged proc f name key f1 (data : list byte)
    (e : rawEvent) :
  reverse f !! name = Some key →
  Remove f name = (None, f1) →
  binary_Read data = inl e →
  Inode e = key →
  Events (on_data proc f1 data) = Events f1 ∧
  kcalls (on_data proc f1 data) = kcalls f1 ++ [KDelete key].
Proof.
  intros Hr HR Hdec Hino.
  destruct (Remove_nil_inv _ _ _ HR) as (key' & t & Hr' & _ & ->).
  rewrite Hr in Hr'. injection Hr' as <-.
  unfold on_data, on_event. rewrite Hdec. simpl.
  rewrite Hino, lookup_delete_eq. simpl.
  by destruct (DeleteElement t key).
Qed.

(** X11: a buffer shorter than 48 bytes is not decoded: no Event is
    sent, no call is made to the kernel and nothing is logged; the
    decode error (EOF for an empty buffer, ErrUnexpectedEOF otherwise)
    is queued on Errors if fewer than [chanSize] errors are pending,
    and dropped otherwise. *)
Theorem short_buffer_is_reported proc f (data : list byte) :
  (length data < rawEventSize)%nat →
  Events (on_data proc f data) = Events f ∧
  kcalls (on_data proc f data) = kcalls f ∧
  Logger (on_data proc f data) = Logger f ∧
  Errors (on_data proc f data) =
    if decide (length (Errors f) < chanSize)%nat
    then Errors f ++
         [ErrorWrap "failed to decode received data %q: %w"
            (if decide (length data = 0%nat) then EOF else ErrUnexpectedEOF)]
    else Errors f.
Proof.
  intros Hshort. unfold on_data.
  rewrite (binary_Read_short_error data Hshort).
  unfold error_send. by case_decide.
Qed.

(** X12: when the command line of the process cannot be read, the
    command name of the Event is the comm field cut at its first zero
    byte. *)
Theorem comm_is_cut_at_first_zero proc f (data : list byte) (e : rawEvent)
    (spath : string) (pre rest : list byte) :
  binary_Read data = inl e →
  getCMDLine proc e = EmptyString →
  Com e = pre ++ x00 :: rest →
  Forall (λ bit, bit ≠ x00) pre →
  mapping f !! Inode e = Some spath →
  Events (on_data proc f data) =
    Events f ++ [mkEvent (Mode e) (PID e) (UID e) (Size e) (Inode e)
                         (Device e) (string_of_list_byte pre) spath].
Proof.
  intros Hdec Hcmd Hcom Hnz Hpath. unfold on_data, on_event.
  rewrite Hdec, Hpath, Hcmd, Hcom. simpl.
  rewrite (PipelineFacts.comLen_loop_first_zero _ _ _ _ Hnz). simpl.
  by rewrite take_app_length.
Qed.

(** *** [StopBPF] *)

Lemma visit_effect (order : list (Z * string)) f :
  mapping (foldl StopBPF_visit f order) = mapping f ∧
  reverse (foldl StopBPF_visit f order) = reverse f ∧
  Events (foldl StopBPF_visit f order) = Events f ∧
  Errors (foldl StopBPF_visit f order) = Errors f ∧
  kcalls (foldl StopBPF_visit f order) = kcalls f ++ (KDelete <$> order.*1).
Proof.
  revert f. induction order as [|[ukey path] order IH]; intros f.
  { simpl. by rewrite app_nil_r. }
  simpl. destruct (IH (StopBPF_visit f (ukey, path))) as (-> & -> & -> & -> & ->).
  unfold StopBPF_visit. simpl.
  destruct (DeleteElement (RulesTable f) ukey) as [t [err|]]; simpl;
    by rewrite <- app_assoc.
Qed.

(** X13: [StopBPF] asks the kernel to delete each key of the key-to-path
    view exactly once and nothing else, goes on when a delete fails,
    returns what closing the module returns, and leaves both views of
    the watch table as they were. *)
Theorem StopBPF_deletes_each_key (close : K → K * option error)
    (order : list (Z * string)) f :
  order ≡ₚ map_to_list (mapping f) →
  mapping (StopBPF close order f).2 = mapping f ∧
  reverse (StopBPF close order f).2 = reverse f ∧
  (StopBPF close order f).1 =
    (close (RulesTable (foldl StopBPF_visit f order))).2 ∧
  ∃ calls, kcalls (StopBPF close order f).2 = kcalls f ++ calls ∧
           NoDup calls ∧
           ∀ c, c ∈ calls ↔ ∃ key, c = KDelete key ∧ is_Some (mapping f !! key).
Proof.
  intros Hperm.
  destruct (visit_effect order f) as (Hm & Hr & _ & _ & Hk).
  assert (Hfields :
    mapping (StopBPF close order f).2 = mapping f ∧
    reverse (StopBPF close order f).2 = reverse f ∧
    (StopBPF close order f).1 =
      (close (RulesTable (foldl StopBPF_visit f order))).2 ∧
    kcalls (StopBPF close order f).2 = kcalls f ++ (KDelete <$> order.*1)).
  { unfold StopBPF.
    destruct (close (RulesTable (foldl StopBPF_visit f order))) as [t [err|]];
      simpl; by rewrite Hm, Hr, Hk. }
  destruct Hfields as (Hm' & Hr' & Hres & Hk').
  split; [done|]. split; [done|]. split; [done|].
  exists (KDelete <$> order.*1). split; [done|]. split.
  - apply NoDup_fmap_2; [by intros k1 k2 [= ->]|].
    rewrite Hperm. apply NoDup_fst_map_to_list.
  - intros c. rewrite list_elem_of_fmap. split.
    + intros (key & -> & Hin). exists key. split; [done|].
      rewrite Hperm in Hin. apply list_elem_of_fmap in Hin as ([k path] & -> & Hin).
      apply elem_of_map_to_list in Hin. by exists path.
    + intros (key & -> & [path Hpath]). exists key. split; [done|].
      rewrite Hperm. apply list_elem_of_fmap. exists (key, path).
      split; [done|]. by apply elem_of_map_to_list.
Qed.

(** *** [getCMDLine] *)

Lemma ReplaceAll_length (line : string) (old new : ascii) :
  String.length (ReplaceAll line old new) = String.length line.
Proof. induction line as [|c line IH]; simpl; [done|]. by rewrite IH. Qed.

Lemma ReplaceAll_gone (line : string) (old new : ascii) :
  new ≠ old → old ∉ list_ascii_of_string (ReplaceAll line old new).
Proof.
  intros Hne. induction line as [|c line IH]; simpl.
  - apply not_elem_of_nil.
  - apply not_elem_of_cons. split; [|done].
    destruct (Ascii.eqb_spec c old); congruence.
Qed.

Lemma scan_lines_empty (lines : list string) :
  scan_lines lines = EmptyString ↔ Forall (λ line, line = EmptyString) lines.
Proof.
  induction lines as [|line lines IH]; simpl.
  - split; [constructor|done].
  - destruct line as [|c line]; simpl.
    + rewrite IH. split; [by constructor|by inversion 1].
    + split; [discriminate|]. inversion 1. discriminate.
Qed.

Lemma scan_lines_no_NUL (lines : list string) :
  Ascii.zero ∉ list_ascii_of_string (scan_lines lines).
Proof.
  induction lines as [|line lines IH]; simpl.
  - apply not_elem_of_nil.
  - destruct (0 <? String.length line)%nat; [|done].
    by apply ReplaceAll_gone.
Qed.

End Facts.

(** X14: the command line that [getCMDLine] returns never holds a NUL
    byte, and it is empty exactly when /proc/<pid>/cmdline cannot be
    opened or has no non-empty line. *)
Theorem getCMDLine_result (proc : Proc) (e : rawEvent) :
  (Ascii.zero ∉ list_ascii_of_string (getCMDLine proc e)) ∧
  (getCMDLine proc e = EmptyString ↔
   (proc (PID e) = None ∨
    (∃ lines, proc (PID e) = Some lines ∧
              Forall (λ line, line = EmptyString) lines))).
Proof.
  unfold getCMDLine. destruct (proc (PID e)) as [lines|].
  - split; [apply scan_lines_no_NUL|]. rewrite scan_lines_empty. split.
    + intros Hall. right. by exists lines.
    + intros [|(lines' & [= <-] & Hall)]; done.
  - split; [apply not_elem_of_nil|]. split; [by left|done].
Qed.

(** *** The kernel table follows the key-to-path view *)

Section Laws.
Context {K : Type} `{!RulesMap K} (keys : K → gset Z) `{!TableLaws K keys}.
Implicit Types (f : FIM K).

Lemma act_keeps_keys f (a : action) :
  keys (RulesTable f) = dom (mapping f) →
  keys (RulesTable (act f a)) = dom (mapping (act f a)).
Proof.
  intros Hsync. destruct a as [[fs name|name]|[proc data|missedCount]]; simpl.
  - destruct (fs name) as [st|e] eqn:Hst.
    + destruct (UpdateElement (RulesTable f) (Ino st) 1 bpfAny) as [t [e|]] eqn:Hup.
      * rewrite (Add_kernel_error _ _ _ _ _ _ Hst Hup). simpl.
        by rewrite (update_error _ _ _ _ _ _ Hup).
      * rewrite (Add_success _ _ _ _ _ Hst Hup). simpl.
        by rewrite (update_nil _ _ _ _ _ Hup), dom_insert_L, Hsync.
    + by rewrite (Add_lookup_error _ _ _ _ Hst).
  - destruct (reverse f !! name) as [key|] eqn:Hr.
    + destruct (DeleteElement (RulesTable f) key) as [t [e|]] eqn:Hd.
      * rewrite (Remove_kernel_error _ _ _ _ _ Hr Hd). simpl.
        by rewrite (delete_error _ _ _ _ Hd).
      * rewrite (Remove_success _ _ _ _ Hr Hd). simpl.
        by rewrite (delete_nil _ _ _ Hd), dom_delete_L, Hsync.
    + by rewrite (Remove_unknown _ _ Hr).
  - unfold on_data. destruct (binary_Read data) as [e|err].
    2:{ destruct (error_send_views
                    (ErrorWrap "failed to decode received data %q: %w" err) f)
          as (-> & _ & -> & _). done. }
    unfold on_event. destruct (mapping f !! Inode e) as [spath|] eqn:Hm; [done|].
    simpl. destruct (DeleteElement (RulesTable f) (Inode e)) as [t [err|]] eqn:Hd;
      simpl.
    + by rewrite (delete_error _ _ _ _ Hd).
    + rewrite (delete_nil _ _ _ Hd), Hsync.
      apply not_elem_of_dom in Hm.
      apply difference_disjoint_L. by apply disjoint_singleton_r.
  - unfold on_missed.
    destruct (error_send_views
                (ErrorString ("log message count: " +:+ pretty missedCount)) f)
      as (-> & _ & -> & _). done.
Qed.

(** X15: with a kernel table that does what its return values say,
    after any sequence of [Add] and [Remove] calls and of inputs to the
    two loops on a fresh monitor over an empty table, the kernel holds a
    key exactly when the key-to-path view has a path for it. *)
Theorem kernel_follows_mapping (actions : list action) (t : K) :
  keys t = ∅ →
  keys (RulesTable (run_actions actions (InitFIM t))) =
    dom (mapping (run_actions actions (InitFIM t))).
Proof.
  intros Hempty. unfold run_actions.
  assert (Hsync : keys (RulesTable (InitFIM t)) = dom (mapping (InitFIM t)))
    by (simpl; by rewrite Hempty, dom_empty_L).
  revert Hsync. generalize (InitFIM t).
  induction actions as [|a actions IH]; intros f Hsync; [done|].
  simpl. apply IH. by apply act_keeps_keys.
Qed.

End Laws.

(** The reference table obeys the laws. *)
Lemma HashTable_laws : TableLaws HashTable (λ t, dom (entries t)).
Proof.
  split.
  - intros t key value flags t'. simpl. unfold hash_update.
    destruct (entries t !! key); repeat case_decide; intros [= <-];
      simpl; by rewrite dom_insert_L.
  - intros t key value flags t' err. simpl. unfold hash_update.
    destruct (entries t !! key); repeat case_decide; by intros [= <- _].
  - intros t key t'. simpl. unfold hash_delete.
    destruct (entries t !! key); intros [= <-]. simpl. by rewrite dom_delete_L.
  - intros t key t' err. simpl. unfold hash_delete.
    destruct (entries t !! key); by intros [= <- _].
Qed.

(** *** Concrete runs *)

Lemma Stats_counts_paths_witness :
  Forall (stat_as fs_plain) ops_plain ∧
  Stats (run ops_plain fim0) = "Currently watching 1 files"%string.
Proof.
  assert (Hops : Forall (stat_as fs_plain) ops_plain) by (repeat constructor).
  split; [exact Hops|].
  etrans; [exact (Stats_counts_paths fs_plain ops_plain (mkHashTable ∅ 64)
                    fs_plain_one_path_per_inode Hops)|].
  vm_compute. reflexivity.
Defined.

(** With two hard links registered, [Stats] counts the one key. *)
Example Stats_counts_keys :
  Stats (run ops_links fim0) = "Currently watching 1 files"%string ∧
  size (reverse (run ops_links fim0)) = 2%nat.
Proof. vm_compute. done. Qed.

Lemma short_buffer_is_reported_witness :
  (length [x01; x02] < rawEventSize)%nat ∧
  Errors (on_data proc_gone fim_passwd [x01; x02]) =
    [ErrorWrap "failed to decode received data %q: %w" ErrUnexpectedEOF].
Proof.
  assert (Hshort : (length [x01; x02] < rawEventSize)%nat)
    by (vm_compute; lia).
  split; [exact Hshort|].
  destruct (short_buffer_is_reported proc_gone fim_passwd [x01; x02] Hshort)
    as (_ & _ & _ & ->).
  reflexivity.
Defined.

Lemma comm_is_cut_at_first_zero_witness :
  getCMDLine proc_gone MoreFixtures.raw_vi = EmptyString ∧
  Events (on_data proc_gone fim_passwd (Encode MoreFixtures.raw_vi).1) =
    [mkEvent 0 4242 0 64 131 2049 "vi" "/etc/passwd"].
Proof.
  assert (Hdec : binary_Read (Encode MoreFixtures.raw_vi).1 = inl MoreFixtures.raw_vi)
    by (vm_compute; reflexivity).
  assert (Hnz : Forall (λ bit, bit ≠ x00) (list_byte_of_string "vi"))
    by (repeat constructor; discriminate).
  assert (Hpath : mapping fim_passwd !! Inode MoreFixtures.raw_vi =
                  Some "/etc/passwd"%string)
    by (vm_compute; reflexivity).
  split; [reflexivity|].
  exact (comm_is_cut_at_first_zero proc_gone fim_passwd _ MoreFixtures.raw_vi _
           (list_byte_of_string "vi") (replicate 13 x00)
           Hdec eq_refl eq_refl Hnz Hpath).
Defined.

Lemma StopBPF_deletes_each_key_witness :
  map_to_list (mapping fim_passwd) ≡ₚ map_to_list (mapping fim_passwd) ∧
  mapping (StopBPF MoreFixtures.close_ok (map_to_list (mapping fim_passwd))
                   fim_passwd).2 = mapping fim_passwd.
Proof.
  split; [reflexivity|].
  exact (proj1 (StopBPF_deletes_each_key MoreFixtures.close_ok
                  (map_to_list (mapping fim_passwd)) fim_passwd
                  (reflexivity _))).
Defined.

(** After [StopBPF] the kernel table is empty and the views still hold
    the path, so the path can no longer be removed. *)
Example Remove_after_StopBPF :
  let f := (StopBPF MoreFixtures.close_ok (map_to_list (mapping fim_passwd))
                    fim_passwd).2 in
  entries (RulesTable f) = ∅ ∧
  kcalls f = [KUpdate 131 1 0; KDelete 131] ∧
  (Remove f "/etc/passwd").1 = Some (Errno ENOENT).
Proof. vm_compute. done. Qed.

Lemma added_path_is_delivered_witness :
  Add fs_plain fim0 "/etc/passwd" = (None, fim_passwd) ∧
  Events (on_data proc_live fim_passwd (Encode MoreFixtures.raw_vi).1) =
    [mkEvent 0 4242 0 64 131 2049 "vi /etc/passwd" "/etc/passwd"].
Proof.
  assert (HA : Add fs_plain fim0 "/etc/passwd" = (None, fim_passwd))
    by (vm_compute; reflexivity).
  assert (Hdec : binary_Read (Encode MoreFixtures.raw_vi).1 = inl MoreFixtures.raw_vi)
    by (vm_compute; reflexivity).
  split; [exact HA|].
  destruct (added_path_is_delivered fs_plain proc_live fim0 "/etc/passwd"
              fim_passwd (mkStat 2049 131) _ _ eq_refl HA Hdec eq_refl)
    as [_ [com Hev]].
  vm_compute. reflexivity.
Defined.

Lemma removed_path_is_purged_witness :
  reverse fim_passwd !! "/etc/passwd" = Some 131 ∧
  kcalls (on_data proc_live (Remove fim_passwd "/etc/passwd").2
                  (Encode MoreFixtures.raw_vi).1) =
    [KUpdate 131 1 0; KDelete 131; KDelete 131].
Proof.
  assert (Hr : reverse fim_passwd !! "/etc/passwd" = Some 131)
    by (vm_compute; reflexivity).
  assert (HR : Remove fim_passwd "/etc/passwd" =
               (None, (Remove fim_passwd "/etc/passwd").2))
    by (vm_compute; reflexivity).
  assert (Hdec : binary_Read (Encode MoreFixtures.raw_vi).1 = inl MoreFixtures.raw_vi)
    by (vm_compute; reflexivity).
  split; [exact Hr|].
  destruct (removed_path_is_purged proc_live fim_passwd "/etc/passwd" 131 _ _ _
              Hr HR Hdec eq_refl) as [_ ->].
  vm_compute. reflexivity.
Defined.

Lemma kernel_follows_mapping_witness :
  dom (entries (mkHashTable ∅ 64)) = ∅ ∧
  dom (entries (RulesTable (run_actions MoreFixtures.a_day fim0))) =
    dom (mapping (run_actions MoreFixtures.a_day fim0)).
Proof.
  assert (Hempty : dom (entries (mkHashTable ∅ 64)) = (∅ : gset Z))
    by apply dom_empty_L.
  split; [exact Hempty|].
  exact (kernel_follows_mapping (λ t, dom (entries t)) (TableLaws0 := HashTable_laws)
           MoreFixtures.a_day (mkHashTable ∅ 64) Hempty).
Defined.

(** What that day leaves behind. *)
Example a_day_outcome :
  let f := run_actions MoreFixtures.a_day fim0 in
  ECom <$> Events f = ["vi /etc/passwd"%string] ∧
  Errors f = [ErrorString "log message count: 3";
              ErrorWrap "failed to decode received data %q: %w" ErrUnexpectedEOF] ∧
  kcalls f = [KUpdate 131 1 0; KDelete 977; KDelete 131] ∧
  mapping f = ∅.
Proof. vm_compute. done. Qed.

End LoopsFacts.

Module EngineMore.
Import Codec Kernel Consumer Registry Fixtures MoreFixtures ConsumerFacts.

(** Checking that an explicit trace is a subsequence of another. *)
Ltac in_order := repeat constructor.

Section Engine.
Context {W : Type} (bc : ParserLoader W).

(** X16: [Init] and [Consume] make their interface calls in one fixed
    order and none of them twice: Load, Parse, Created, Changed, Notify,
    Save, Teardown for [Init], and Parse, Changed, Notify, Save,
    Teardown for [Consume]; a run stops early or skips calls but never
    reorders or repeats them. *)
Theorem calls_in_order (e : Event) (w : W) :
  (exec (Init bc) w).2.2 `sublist_of`
    [CallLoad; CallParse; CallCreated; CallChanged; CallNotify "baseInit";
     CallSave; CallTeardown] ∧
  (exec (Consume bc e) w).2.2 `sublist_of`
    [CallParse; CallChanged; CallNotify (ECom e); CallSave; CallTeardown].
Proof.
  split.
  - engine.
    destruct (Load bc w) as [[err|] w1]; simpl; [in_order|].
    destruct (Parse bc w1) as [[state [err|]] w2]; simpl; [in_order|].
    destruct (Created state w2) as [[] w3]; simpl.
    + destruct (Save bc w3) as [[err|] w4]; simpl; [in_order|].
      destruct (Teardown state w4) as [r w5]; simpl.
      case_decide; simpl; in_order.
    + destruct (Changed state w3) as [[] w4]; simpl.
      * destruct (Notify state "baseInit" w4) as [[] w5]; simpl.
        destruct (Save bc w5) as [[err|] w6]; simpl; [in_order|].
        destruct (Teardown state w6) as [r w7]; simpl.
        case_decide; simpl; in_order.
      * destruct (Save bc w4) as [[err|] w5]; simpl; [in_order|].
        destruct (Teardown state w5) as [r w6]; simpl.
        case_decide; simpl; in_order.
  - engine.
    destruct (Parse bc w) as [[state [err|]] w1]; simpl; [in_order|].
    destruct (Changed state w1) as [[] w2]; simpl.
    + destruct (Notify state (ECom e) w2) as [[] w3]; simpl.
      destruct (Save bc w3) as [[err|] w4]; simpl; [in_order|].
      destruct (Teardown state w4) as [r w5]; simpl. in_order.
    + destruct (Teardown state w2) as [r w3]; simpl. in_order.
Qed.

End Engine.

(** *** [BaseConsumer.Register] *)

Lemma Register_fold {C : Type} (files : list string) (bc : C)
    (consumers : gmap string C) (file : string) :
  foldl (λ consumers file, <[file := bc]> consumers) consumers files !! file =
    if decide (file ∈ files) then Some bc else consumers !! file.
Proof.
  revert consumers.
  induction files as [|file' files IH]; intros consumers; cbn [foldl].
  { rewrite decide_False; [done|]. apply not_elem_of_nil. }
  rewrite IH. destruct (decide (file ∈ files)) as [Hin|Hnin].
  - rewrite decide_True; [done|]. by right.
  - destruct (decide (file' = file)) as [->|Hne].
    + rewrite decide_True by left. apply lookup_insert_eq.
    + rewrite decide_False.
      * by apply lookup_insert_ne.
      * intros [->|Hin]%elem_of_cons; done.
Qed.

(** X17: the map that [BaseConsumer.Register] builds holds the consumer
    under every file its parser lists and holds nothing else; listing a
    file more than once makes no difference. *)
Theorem Register_lookup {C : Type} (files : list string) (bc : C) (file : string) :
  Register files bc !! file = if decide (file ∈ files) then Some bc else None.
Proof. unfold Register. by rewrite Register_fold, lookup_empty. Qed.

(** *** The watch-gap handler *)

Lemma start_missing (File : string) (ticks : list FS) (events : list Event) :
  Forall (λ fs, ∃ err, fs File = inr err) ticks →
  start File ticks events = events.
Proof.
  induction 1 as [|fs ticks [err Hfs] _ IH]; simpl; [done|]. by rewrite Hfs.
Qed.

(** X18: the watch-gap handler sends nothing while the file is missing
    at every tick; at the first tick that finds the file it sends one
    Event, with the path, mode 1 and every other field zero, and sends
    no more after that; and from then on its [Register] hands over to
    the wrapped consumer, while before it registers itself for the
    path. *)
Theorem gap_handler (File : string) (events : list Event) :
  (∀ ticks, Forall (λ fs, ∃ err, fs File = inr err) ticks →
            start File ticks events = events) ∧
  (∀ before fs after st,
      Forall (λ fs, ∃ err, fs File = inr err) before →
      fs File = inl st →
      start File (before ++ fs :: after) events =
        events ++ [mkEvent 1 0 0 0 0 0 EmptyString File] ∧
      ∀ (C : Type) (fm : C) inner,
        FileMissing_Register fs File fm inner = inner) ∧
  (∀ fs err (C : Type) (fm : C) inner,
      fs File = inr err →
      FileMissing_Register fs File fm inner = Some {[ File := fm ]}).
Proof.
  split; [intros ticks; apply start_missing|]. split.
  - intros before fs after st Hbefore Hfs. split.
    + induction Hbefore as [|fs' before [err Hfs'] _ IH]; simpl.
      * by rewrite Hfs.
      * by rewrite Hfs'.
    + intros C fm inner. unfold FileMissing_Register. by rewrite Hfs.
  - intros fs err C fm inner Hfs. unfold FileMissing_Register. by rewrite Hfs.
Qed.

Lemma gap_handler_witness :
  start "/etc/shadow" [fs_before; fs_before; fs_plain; fs_before] [] =
    [mkEvent 1 0 0 0 0 0 EmptyString "/etc/shadow"].
Proof.
  assert (Hbefore : Forall (λ fs : FS, ∃ err, fs "/etc/shadow"%string = inr err)
                           [fs_before; fs_before])
    by (repeat constructor; by eexists).
  exact (proj1 (proj1 (proj2 (gap_handler "/etc/shadow" []))
                  [fs_before; fs_before] fs_plain [fs_before]
                  (mkStat 2049 140) Hbefore eq_refl)).
Defined.

End EngineMore.

Module UsersMore.
Import Codec Consumer Fixtures MoreFixtures ConsumerFacts.

Section UsersFacts.
Context `{Users.Deps}.
Implicit Types us : Users.UsersState.

(** What a successful [Parse] leaves. *)
Lemma Parse_next us users incs :
  Users.parse (Users.disk us) = ((users, incs), None) →
  Users.Parse us =
    ((Users.asState, None), Users.set_next (Users.mkSnapshot users incs) us).
Proof. intros HP. unfold Users.Parse. by rewrite HP. Qed.

(** X19: when loading, parsing and saving all succeed, [Init] on a users
    consumer returns nil and leaves the parsed users and include list as
    both the current and the next snapshot, with the parsed users in the
    database; if the database held no users before, no warning has been
    written. *)
Theorem Init_users_baseline us stored users incs db' :
  Users.LoadUsers (Users.db us) = (stored, None) →
  Users.parse (Users.disk us) = ((users, incs), None) →
  Users.SaveUsers (Users.db us) users = (None, db') →
  (exec (Init Users.asParserLoader) us).1 = None ∧
  Users.current (exec (Init Users.asParserLoader) us).2.1 =
    Users.mkSnapshot users incs ∧
  Users.next (exec (Init Users.asParserLoader) us).2.1 =
    Users.mkSnapshot users incs ∧
  Users.db (exec (Init Users.asParserLoader) us).2.1 = db' ∧
  (stored = [] →
   Users.warnings (exec (Init Users.asParserLoader) us).2.1 = Users.warnings us).
Proof.
  intros HL HP HS. engine. unfold Users.Load. rewrite HL. simpl.
  unfold Users.Parse. simpl. rewrite HP. simpl.
  unfold Users.Created. simpl.
  destruct stored as [|u stored]; simpl.
  - unfold Users.Save. simpl. rewrite HS. simpl.
    rewrite Teardown_commits. simpl. done.
  - unfold Users.Changed. simpl.
    destruct (Users.userDiff (u :: stored) users) as [add del] eqn:Hdiff. simpl.
    destruct (negb (length add =? 0)%nat || negb (length del =? 0)%nat); simpl.
    + unfold Users.Notify. simpl. rewrite Hdiff. simpl.
      unfold Users.Save. simpl. rewrite HS. simpl.
      rewrite Teardown_commits. simpl.
      split; [done|]. split; [done|]. split; [done|]. split; [done|].
      discriminate.
    + unfold Users.Save. simpl. rewrite HS. simpl.
      rewrite Teardown_commits. simpl.
      split; [done|]. split; [done|]. split; [done|]. split; [done|].
      discriminate.
Qed.

(** What a [Consume] that returns nil leaves. *)
Lemma Consume_nil_commits us (e : Event) users incs :
  Users.parse (Users.disk us) = ((users, incs), None) →
  (exec (Consume Users.asParserLoader e) us).1 = None →
  Users.current (exec (Consume Users.asParserLoader e) us).2.1 =
    Users.mkSnapshot users incs ∧
  Users.disk (exec (Consume Users.asParserLoader e) us).2.1 = Users.disk us.
Proof.
  intros HP. engine. unfold Users.Parse. rewrite HP. simpl.
  unfold Users.Changed. simpl.
  destruct (Users.userDiff (Users.users (Users.current us)) users)
    as [add del] eqn:Hdiff. simpl.
  destruct (negb (length add =? 0)%nat || negb (length del =? 0)%nat); simpl.
  - unfold Users.Notify. simpl. rewrite Hdiff. simpl.
    unfold Users.Save. simpl.
    destruct (Users.SaveUsers (Users.db us) users) as [[err|] db']; simpl;
      [discriminate|].
    by rewrite Teardown_commits.
  - by rewrite Teardown_commits.
Qed.

(** X20: if a user list never differs from itself, then after a
    [Consume] that returned nil a second [Consume] over the same files
    finds nothing changed: it parses, compares and commits, and neither
    notifies nor saves. *)
Theorem Consume_settles us (e1 e2 : Event) users incs :
  (∀ u, Users.userDiff u u = ([], [])) →
  Users.parse (Users.disk us) = ((users, incs), None) →
  (exec (Consume Users.asParserLoader e1) us).1 = None →
  (exec (Consume Users.asParserLoader e2)
        (exec (Consume Users.asParserLoader e1) us).2.1).2.2 =
    [CallParse; CallChanged; CallTeardown].
Proof.
  intros Hrefl HP Hnil.
  destruct (Consume_nil_commits us e1 users incs HP Hnil) as [Hcur Hdisk].
  set (us1 := (exec (Consume Users.asParserLoader e1) us).2.1) in *.
  assert (HP1 : Users.parse (Users.disk us1) = ((users, incs), None))
    by (by rewrite Hdisk).
  clearbody us1. engine. unfold Users.Parse. rewrite HP1. simpl.
  unfold Users.Changed. simpl. rewrite Hcur. simpl. rewrite Hrefl. simpl.
  by rewrite Teardown_commits.
Qed.

(** X21: when the parsed users differ from the current ones and saving
    them fails, [Consume] returns the save error after it has notified,
    does not call [Teardown], and leaves the current snapshot as it was,
    so the same change is found again on the next event. *)
Theorem Consume_failed_Save us (e : Event) users incs err db' :
  Users.parse (Users.disk us) = ((users, incs), None) →
  (Users.Changed (Users.set_next (Users.mkSnapshot users incs) us)).1 = true →
  Users.SaveUsers (Users.db us) users = (Some err, db') →
  exec (Consume Users.asParserLoader e) us =
    (Some err,
     (Users.mkUsers (Users.current us) (Users.mkSnapshot users incs)
        (Users.disk us)
        (Users.warnings us ++
           [Users.mkUsersModified users
              (Users.userDiff (Users.users (Users.current us)) users).1
              (Users.userDiff (Users.users (Users.current us)) users).2
              (ECom e)])
        db',
      [CallParse; CallChanged; CallNotify (ECom e); CallSave])).
Proof.
  intros HP HC HS. engine. unfold Users.Parse. rewrite HP. simpl.
  unfold Users.Changed in *. simpl in *.
  destruct (Users.userDiff (Users.users (Users.current us)) users)
    as [add del] eqn:Hdiff. simpl in *. rewrite HC. simpl.
  unfold Users.Notify. simpl. rewrite Hdiff. simpl.
  unfold Users.Save. simpl. by rewrite HS.
Qed.

(** X22: an error that [Consume] returns on a users consumer is the
    error of parsing or the error of saving; committing the state never
    fails and never asks for a reload. *)
Theorem Consume_users_errors us (e : Event) err :
  (exec (Consume Users.asParserLoader e) us).1 = Some err →
  (Users.parse (Users.disk us)).2 = Some err ∨
  ∃ users, (Users.SaveUsers (Users.db us) users).1 = Some err.
Proof.
  engine. unfold Users.Parse.
  destruct (Users.parse (Users.disk us)) as [[users incs] [perr|]] eqn:HP; simpl.
  { intros [= ->]. by left. }
  unfold Users.Changed. simpl.
  destruct (Users.userDiff (Users.users (Users.current us)) users)
    as [add del] eqn:Hdiff. simpl.
  destruct (negb (length add =? 0)%nat || negb (length del =? 0)%nat); simpl.
  - unfold Users.Notify. simpl. rewrite Hdiff. simpl.
    unfold Users.Save. simpl.
    destruct (Users.SaveUsers (Users.db us) users) as [[serr|] db'] eqn:HS; simpl.
    + intros [= ->]. right. exists users. by rewrite HS.
    + by rewrite Teardown_commits.
  - by rewrite Teardown_commits.
Qed.

End UsersFacts.

Section AccessFacts.
Context `{Accesses.Deps}.

(** X23: on an access consumer whose rules parse, [Consume] returns nil
    with the parsed rules committed as current, unless the rules changed
    and saving them failed: then it returns the save error and the
    current rules stay as they were. It never asks for a reload. *)
Theorem Consume_access (as_ : Accesses.AccessState) (e : Event) access :
  Accesses.parse (Accesses.disk as_) = (access, None) →
  ((exec (Consume Accesses.asParserLoader e) as_).1 = None ∧
   Accesses.current (exec (Consume Accesses.asParserLoader e) as_).2.1 = access) ∨
  ((exec (Consume Accesses.asParserLoader e) as_).1 =
     (Accesses.SaveAccess (Accesses.db as_) access).1 ∧
   (exec (Consume Accesses.asParserLoader e) as_).1 ≠ None ∧
   (Accesses.Changed
      (Accesses.mkAccess (Accesses.current as_) access (Accesses.disk as_)
         (Accesses.warnings as_) (Accesses.db as_))).1 = true ∧
   Accesses.current (exec (Consume Accesses.asParserLoader e) as_).2.1 =
     Accesses.current as_).
Proof.
  intros HP. engine. unfold Accesses.Parse. rewrite HP. simpl.
  unfold Accesses.Changed. simpl.
  destruct (Accesses.accessDiff (Accesses.current as_) access)
    as [add del] eqn:Hdiff. simpl.
  destruct (negb (Accesses.IsEmpty add) || negb (Accesses.IsEmpty del)); simpl.
  - unfold Accesses.Notify. simpl. rewrite Hdiff. simpl.
    unfold Accesses.Save. simpl.
    destruct (Accesses.SaveAccess (Accesses.db as_) access) as [[serr|] db'];
      simpl.
    + right. by repeat split.
    + by left.
  - by left.
Qed.

End AccessFacts.

(** *** Concrete runs *)

Lemma diff_of_same_is_empty (u : list string) :
  Users.userDiff u u = ([], []).
Proof.
  assert (Hnone : filter (λ x, x ∉ u) u = []).
  { destruct (filter (λ x, x ∉ u) u) as [|x rest] eqn:Hf; [done|].
    assert (Hin : x ∈ filter (λ x, x ∉ u) u) by (rewrite Hf; left).
    apply list_elem_of_filter in Hin as [Hnin Hin]. done. }
  simpl. by rewrite Hnone.
Qed.

Lemma Init_users_baseline_witness :
  Users.LoadUsers (Users.db (users0 ["alice"] ["alice"; "bob"] ["/home/bob/.ssh"]))
    = (["alice"%string], None) ∧
  Users.current (exec (Init Users.asParserLoader)
                      (users0 ["alice"] ["alice"; "bob"] ["/home/bob/.ssh"])).2.1 =
    Users.mkSnapshot ["alice"%string; "bob"%string] ["/home/bob/.ssh"%string].
Proof.
  split; [reflexivity|].
  exact (proj1 (proj2 (Init_users_baseline
                         (users0 ["alice"] ["alice"; "bob"] ["/home/bob/.ssh"])
                         ["alice"%string] ["alice"%string; "bob"%string]
                         ["/home/bob/.ssh"%string]
                         (["alice"%string; "bob"%string], None)
                         eq_refl eq_refl eq_refl))).
Defined.

Lemma Consume_settles_witness :
  (exec (Consume Users.asParserLoader event_passwd)
        (users1 ["alice"] [] ["alice"; "bob"] [])).2.2 =
    [CallParse; CallChanged; CallNotify "vi /etc/passwd"; CallSave; CallTeardown] ∧
  (exec (Consume Users.asParserLoader event_passwd)
        (exec (Consume Users.asParserLoader event_passwd)
              (users1 ["alice"] [] ["alice"; "bob"] [])).2.1).2.2 =
    [CallParse; CallChanged; CallTeardown].
Proof.
  split; [reflexivity|].
  exact (Consume_settles (users1 ["alice"] [] ["alice"; "bob"] [])
           event_passwd event_passwd ["alice"%string; "bob"%string] []
           diff_of_same_is_empty eq_refl eq_refl).
Defined.

Lemma Consume_failed_Save_witness :
  Users.SaveUsers (Users.db (users_readonly ["alice"] ["alice"; "bob"]))
                  ["alice"%string; "bob"%string] =
    (Some (ErrorString "read-only database"),
     Users.db (users_readonly ["alice"] ["alice"; "bob"])) ∧
  (exec (Consume Users.asParserLoader event_passwd)
        (users_readonly ["alice"] ["alice"; "bob"])).1 =
    Some (ErrorString "read-only database") ∧
  Users.current (exec (Consume Users.asParserLoader event_passwd)
                      (users_readonly ["alice"] ["alice"; "bob"])).2.1 =
    Users.mkSnapshot ["alice"%string] [].
Proof.
  split; [reflexivity|].
  rewrite (Consume_failed_Save (users_readonly ["alice"] ["alice"; "bob"])
             event_passwd ["alice"%string; "bob"%string] []
             (ErrorString "read-only database")
             (["alice"%string], Some (ErrorString "read-only database"))
             eq_refl eq_refl eq_refl).
  split; reflexivity.
Defined.

Lemma Consume_users_errors_witness :
  (exec (Consume Users.asParserLoader event_passwd)
        (users_readonly ["alice"] ["alice"; "bob"])).1 =
    Some (ErrorString "read-only database") ∧
  ((Users.parse (Users.disk (users_readonly ["alice"] ["alice"; "bob"]))).2 =
     Some (ErrorString "read-only database") ∨
   ∃ users,
     (Users.SaveUsers (Users.db (users_readonly ["alice"] ["alice"; "bob"]))
                      users).1 = Some (ErrorString "read-only database")).
Proof.
  split; [reflexivity|].
  exact (Consume_users_errors (users_readonly ["alice"] ["alice"; "bob"])
           event_passwd (ErrorString "read-only database") eq_refl).
Defined.

Lemma Consume_access_witness :
  Accesses.parse (Accesses.disk
    (access1 ["-:root:ALL"] ["-:root:ALL"; "+:nobody:nobody"] None)) =
    (["-:root:ALL"%string; "+:nobody:nobody"%string], None) ∧
  Accesses.current
    (exec (Consume Accesses.asParserLoader event_passwd)
          (access1 ["-:root:ALL"] ["-:root:ALL"; "+:nobody:nobody"] None)).2.1 =
    ["-:root:ALL"%string; "+:nobody:nobody"%string].
Proof.
  split; [reflexivity|].
  destruct (Consume_access
              (access1 ["-:root:ALL"] ["-:root:ALL"; "+:nobody:nobody"] None)
              event_passwd ["-:root:ALL"%string; "+:nobody:nobody"%string]
              eq_refl) as [[_ Hcur]|[_ [Hne _]]].
  - exact Hcur.
  - exfalso. apply Hne. reflexivity.
Defined.

(** The access example of the spec: one rule stored, none on disk. *)
Example access_rule_removed :
  let r := exec (Consume Accesses.asParserLoader event_passwd)
                (access1 ["+:john:127.0.0.0/24"] [] None) in
  r.1 = None ∧
  r.2.2 = [CallParse; CallChanged; CallNotify "vi /etc/passwd"; CallSave;
           CallTeardown] ∧
  Accesses.warnings r.2.1 =
    [Accesses.mkAccessEntries [] [] ["+:john:127.0.0.0/24"%string]
                              "vi /etc/passwd"] ∧
  Accesses.current r.2.1 = [].
Proof. vm_compute. done. Qed.

End UsersMore.
